(** * Orbit playback of the solar-system visualisation (src/main.js)

    src/main.js holds the successive versions of the application file.  Two
    of them contain the orbit playback engine and are embedded here:

    - [Sampled]  (lines 27-196): positions are loaded concurrently, the raw
      records are kept in [planetPositions] and indexed by [frameIndex];
    - [Polyline] (lines 197-416): positions are loaded one planet after the
      other into [orbitLines], and the meshes are moved along the points of
      the orbit line, driven by [t] and [speed].

    JavaScript numbers are embedded as exact rationals ([Qc]); a value that
    is not a finite number ([NaN], an infinity, [undefined]) is [None] in
    [jsnum].  In [Sampled] and [Polyline] the sums and products are those
    of the rationals, and the points of a line are the vectors handed to
    [setFromPoints], before its buffer rounds them to 32-bit floats.
    Rounding is embedded apart: [Ieee] is rounding to nearest, ties to even,
    for doubles and 32-bit floats, and [Doubles] has the two counters and
    the arithmetic of the star field in it.

    The records of a positions file are embedded twice: as the typed
    [entry], which is what the files of the application hold, and in
    [Json] and [Dynamic] as arbitrary values of [JSON.parse], where line 171
    can throw.  Scene, camera, textures, lights, rotations and the renderer
    calls do not read or write the playback state and are left out. *)

From Stdlib Require Import ZArith QArith Qcanon Qround Qpower Lqa.
From stdpp Require Import gmap strings list fin_maps numbers.

Local Open Scope Qc_scope.

(** ** Values shared by both versions *)

(** A number as a coordinate can hold it: [None] is [NaN], an infinity or
    [undefined]. *)
Abbreviation jsnum := (option Qc).

(** [THREE.Vector3]. *)
Record Vector3 := mkVector3 { vx : jsnum; vy : jsnum; vz : jsnum }.

#[global] Instance Vector3_eq_dec : EqDecision Vector3.
Proof. solve_decision. Defined.

(** A fresh mesh sits at the origin. *)
Definition origin : Vector3 := mkVector3 (Some 0) (Some 0) (Some 0).

(** What an out-of-range read of a buffer attribute leaves in a vector. *)
Definition undefined3 : Vector3 := mkVector3 None None None.

(** One record of a positions file, as [res.json()] delivers it: [null]
    (any falsy value behaves alike), or a value whose [pos] field is absent
    ([None]) or an array of numbers.  The files are arrays of such
    records; records of any other shape are those of [Json.value]. *)
Inductive entry :=
| Null
| Obj (pos : option (list Qc)).

#[global] Instance entry_eq_dec : EqDecision entry.
Proof. solve_decision. Defined.

(** What [fetch(..).then(res => res.json())] settles to. *)
Inductive response :=
| Rejected (err : string)
| Parsed (data : list entry).

(** [a % n] on integer operands: the remainder of the truncated division,
    and [NaN] when the divisor is zero. *)
Definition rem_int (a n : Z) : option Z :=
  if decide (n = 0%Z) then None else Some (Z.rem a n).

(** Rounding towards zero. *)
Definition trunc (q : Qc) : Z :=
  if decide (0 ≤ q) then Qfloor q else Qceiling q.

(** [x % n] on a fractional dividend. *)
Definition rem_num (x : Qc) (n : Z) : option Qc :=
  if decide (n = 0%Z) then None
  else Some (x - Qc_of_Z n * Qc_of_Z (trunc (x / Qc_of_Z n))).

(** [Math.floor], which maps [NaN] to [NaN]. *)
Definition floor (x : jsnum) : option Z := (λ q : Qc, Qfloor q) <$> x.

(** [a[i]]: [undefined] when [i] is [NaN], negative or past the end. *)
Definition at_index {A} (a : list A) (i : option Z) : option A :=
  match i with
  | Some z => if decide (0 ≤ z)%Z then a !! Z.to_nat z else None
  | None => None
  end.

(** [v * s] and [v / s] on a coordinate. *)
Definition times (v : jsnum) (s : Qc) : jsnum := (λ q, q * s) <$> v.

Definition over (v : jsnum) (s : Qc) : jsnum :=
  if decide (s = 0) then None else (λ q, q / s) <$> v.

(** [entry && entry.pos && entry.pos.length === 3] *)
Definition has_pos3 (e : entry) : bool :=
  match e with
  | Null => false
  | Obj None => false
  | Obj (Some pos) => bool_decide (length pos = 3%nat)
  end.


(** ** Version 2: raw samples indexed by [frameIndex] (lines 27-196) *)
Module Sampled.

Record planet := mkPlanet {
  name : string;
  file : string;
  radius : Qc;
  color : Z;
  ORBIT_SCALE : Qc
}.

Definition FRAME_SPEED : Qc := Q2Qc (1 # 10).

Definition inner : Qc := Q2Qc (5 # 10000000).
Definition outer : Qc := Q2Qc (3 # 10000000).

Definition mercury : planet :=
  mkPlanet "Mercury" "mercury_positions.json" (Q2Qc (125 # 100)) 0xff3333 inner.
Definition venus : planet :=
  mkPlanet "Venus" "venus_positions.json" (Q2Qc (25 # 10)) 0xffcc33 inner.
Definition earth : planet :=
  mkPlanet "Earth" "earth_positions.json" (Q2Qc (275 # 100)) 0x3399ff inner.
Definition mars : planet :=
  mkPlanet "Mars" "mars_positions.json" (Q2Qc (175 # 100)) 0xff6633 inner.
Definition jupiter : planet :=
  mkPlanet "Jupiter" "jupiter_positions.json" (Q2Qc 7) 0xffcc33 outer.
Definition saturn : planet :=
  mkPlanet "Saturn" "saturn_positions.json" (Q2Qc 6) 0xffcc33 outer.
Definition uranus : planet :=
  mkPlanet "Uranus" "uranus_positions.json" (Q2Qc (425 # 100)) 0x66ccff outer.
Definition neptune : planet :=
  mkPlanet "Neptune" "neptune_positions.json" (Q2Qc 4) 0x3333ff outer.
Definition pluto : planet :=
  mkPlanet "Pluto" "pluto_positions.json" (Q2Qc (75 # 100)) 0xaaaaaa outer.

Definition planets : list planet :=
  [mercury; venus; earth; mars; jupiter; saturn; uranus; neptune; pluto].

(** What the code writes to the console. *)
Inductive log :=
| LogLoaded (n : nat) (who : string)
| LogSample (who : string) (sample : list entry)
| LogError (who : string) (err : string)
| LogAllLoaded
| LogMars (pos : list Qc) (scaled : Vector3).

(** The globals: [planetMeshes] (each mesh by its position), the points of
    each planet's [orbitPath] line, [planetPositions], [frameIndex], the
    console, and the names whose loading promise has settled. *)
Record state := mkState {
  planetMeshes : gmap string Vector3;
  orbitPath : gmap string (list Vector3);
  planetPositions : gmap string (list entry);
  frameIndex : Qc;
  console : list log;
  settled : gset string;
  started : bool
}.

Definition set_mesh (k : string) (v : Vector3) (s : state) : state :=
  mkState (<[k := v]> (planetMeshes s)) (orbitPath s) (planetPositions s)
          (frameIndex s) (console s) (settled s) (started s).

Definition set_path (k : string) (pts : list Vector3) (s : state) : state :=
  mkState (planetMeshes s) (<[k := pts]> (orbitPath s)) (planetPositions s)
          (frameIndex s) (console s) (settled s) (started s).

Definition set_positions (k : string) (data : list entry) (s : state) : state :=
  mkState (planetMeshes s) (orbitPath s) (<[k := data]> (planetPositions s))
          (frameIndex s) (console s) (settled s) (started s).

Definition set_frameIndex (f : Qc) (s : state) : state :=
  mkState (planetMeshes s) (orbitPath s) (planetPositions s) f
          (console s) (settled s) (started s).

Definition console_log (l : log) (s : state) : state :=
  mkState (planetMeshes s) (orbitPath s) (planetPositions s)
          (frameIndex s) (console s ++ [l]) (settled s) (started s).

Definition settle (k : string) (s : state) : state :=
  mkState (planetMeshes s) (orbitPath s) (planetPositions s)
          (frameIndex s) (console s) ({[k]} ∪ settled s) (started s).

Definition set_started (s : state) : state :=
  mkState (planetMeshes s) (orbitPath s) (planetPositions s)
          (frameIndex s) (console s) (settled s) true.

(** Lines 83-109: one mesh and one empty orbit line per planet, no
    positions, counter at zero. *)
Definition create (s : state) (p : planet) : state :=
  set_path (name p) [] (set_mesh (name p) origin s).

Definition startup (ps : list planet) : state :=
  foldl create (mkState ∅ ∅ ∅ 0 [] ∅ false) ps.

(** Lines 122-126: the scaled point of a record that passed the filter
    (the last case is never reached behind the filter). *)
Definition scaled (scale : Qc) (e : entry) : Vector3 :=
  match e with
  | Obj (Some pos) =>
      mkVector3 (times (pos !! 0%nat) scale) (times (pos !! 1%nat) scale)
                (times (pos !! 2%nat) scale)
  | _ => undefined3
  end.

(** Lines 112-132: the promise chain of one planet, run on what its fetch
    settled to.  The [catch] handler returns, so the promise is fulfilled
    in both cases. *)
Definition load (p : planet) (r : response) (s : state) : state :=
  settle (name p)
    match r with
    | Parsed data =>
        let s1 := set_positions (name p) data s in
        let s2 := console_log (LogLoaded (length data) (name p)) s1 in
        let points := map (scaled (ORBIT_SCALE p)) (filter (λ e, has_pos3 e = true) data) in
        let s3 := set_path (name p) points s2 in
        console_log (LogSample (name p) (take 5 data)) s3
    | Rejected err => console_log (LogError (name p) err) s
    end.

(** Line 167: [Math.floor(frameIndex) % positions.length]. *)
Definition sampleIndex (f : Qc) (len : nat) : option Z :=
  rem_int (Qfloor f) (Z.of_nat len).

(** What one pass of the [forEach] body does to a planet. *)
Inductive outcome :=
| Skipped
| Kept (idx : option Z)
| Moved (idx : option Z) (pos : list Qc) (v : Vector3).

(** Lines 163-177, as a function of what the body reads.  On the typed
    records every property read sits behind the guard that makes it defined
    and the destructuring of line 171 meets an array, so [outcome] lists
    all the ways a pass can end; [Dynamic.advance] is the same code on
    records of any shape. *)
Definition advance (frameIndex : Qc) (scale : Qc)
    (positions : option (list entry)) (mesh : option Vector3) : outcome :=
  match positions, mesh with
  | Some positions, Some _ =>
      if bool_decide (0 < length positions)%nat then
        let idx := sampleIndex frameIndex (length positions) in
        match at_index positions idx with
        | Some (Obj (Some pos)) =>
            if bool_decide (length pos = 3%nat) then
              Moved idx pos
                (mkVector3 (times (pos !! 0%nat) scale) (times (pos !! 1%nat) scale)
                           (times (pos !! 2%nat) scale))
            else Kept idx
        | _ => Kept idx
        end
      else Skipped
  | _, _ => Skipped
  end.

(** [frameIndex % 60 === 0] *)
Definition on_the_minute (f : Qc) : bool :=
  bool_decide (rem_num f 60 = Some 0).

(** What the body reads for planet [p] in state [s], and what it decides. *)
Definition outcome_of (s : state) (p : planet) : outcome :=
  advance (frameIndex s) (ORBIT_SCALE p)
          (planetPositions s !! name p) (planetMeshes s !! name p).

(** The position a pass hands to the mesh, if any. *)
Definition produced (o : outcome) : option Vector3 :=
  match o with
  | Moved _ _ v => Some v
  | _ => None
  end.

(** Lines 162-184: the body of the [forEach]. *)
Definition body (s : state) (p : planet) : state :=
  match outcome_of s p with
  | Moved _ pos v =>
      let s1 := set_mesh (name p) v s in
      if bool_decide (name p = "Mars") && on_the_minute (frameIndex s)
      then console_log (LogMars pos v) s1 else s1
  | _ => s
  end.

(** Lines 159-189, for a list of planets and a step. *)
Definition animate_with (step : Qc) (ps : list planet) (s : state) : state :=
  let s1 := foldl body s ps in
  set_frameIndex (frameIndex s1 + step) s1.

Definition animate : state → state := animate_with FRAME_SPEED planets.

(** [n] frames in a row. *)
Definition frames (n : nat) (step : Qc) (ps : list planet) (s : state) : state :=
  Nat.iter n (animate_with step ps) s.

(** Lines 134-137: [Promise.all] lets the loop start once every promise
    has settled; from then on each animation frame calls [animate]. *)
Definition all_settled (ps : list planet) (s : state) : bool :=
  forallb (λ p, bool_decide (name p ∈ settled s)) ps.

Inductive event :=
| Settle (p : planet) (r : response)
| Start
| Frame.

Definition step (inc : Qc) (ps : list planet) (s : state) (e : event) : state :=
  match e with
  | Settle p r => load p r s
  | Start =>
      if all_settled ps s && negb (started s)
      then animate_with inc ps (set_started (console_log LogAllLoaded s))
      else s
  | Frame => if started s then animate_with inc ps s else s
  end.

Definition run (inc : Qc) (ps : list planet) (es : list event) (s : state) : state :=
  foldl (step inc ps) s es.

(** An event that is not the successful load of the body [k]. *)
Definition spares (k : string) (e : event) : Prop :=
  match e with
  | Settle q (Parsed _) => name q ≠ k
  | _ => True
  end.

End Sampled.

(** ** Version 3: meshes moved along the orbit line (lines 197-416) *)
Module Polyline.

(** The fields of a planet that playback reads. *)
Record planet := mkPlanet {
  name : string;
  size : Qc;
  scale : Qc
}.

Definition near : Qc := Q2Qc 400000.
Definition far : Qc := Q2Qc 520000.

Definition planets : list planet := [
  mkPlanet "mercury" (Q2Qc 10) near;
  mkPlanet "venus" (Q2Qc 20) near;
  mkPlanet "earth" (Q2Qc 22) near;
  mkPlanet "mars" (Q2Qc 18) near;
  mkPlanet "jupiter" (Q2Qc 70) far;
  mkPlanet "saturn" (Q2Qc 60) far;
  mkPlanet "uranus" (Q2Qc 40) far;
  mkPlanet "neptune" (Q2Qc 39) far;
  mkPlanet "pluto" (Q2Qc 14) far
].

(** A [THREE.LineLoop]: the points of its geometry and its [visible]
    flag. *)
Record line := mkLine { points : list Vector3; visible : bool }.

#[global] Instance line_eq_dec : EqDecision line.
Proof. solve_decision. Defined.

(** Where [loadPlanets] stands: suspended at the [await] of a planet with
    the rest of the list still to do, returned, or rejected. *)
Inductive loader :=
| Awaiting (p : planet) (rest : list planet)
| Finished
| Aborted.

#[global] Instance planet_eq_dec : EqDecision planet.
Proof. solve_decision. Defined.

#[global] Instance loader_eq_dec : EqDecision loader.
Proof. solve_decision. Defined.

Record state := mkState {
  planetMeshes : gmap string Vector3;
  orbitLines : gmap string line;
  orbitsVisible : bool;
  speed : Qc;
  t : Qc;
  loading : loader
}.

Definition set_mesh (k : string) (v : Vector3) (s : state) : state :=
  mkState (<[k := v]> (planetMeshes s)) (orbitLines s) (orbitsVisible s)
          (speed s) (t s) (loading s).

Definition set_line (k : string) (l : line) (s : state) : state :=
  mkState (planetMeshes s) (<[k := l]> (orbitLines s)) (orbitsVisible s)
          (speed s) (t s) (loading s).

Definition set_loading (l : loader) (s : state) : state :=
  mkState (planetMeshes s) (orbitLines s) (orbitsVisible s)
          (speed s) (t s) l.

Definition set_speed (v : Qc) (s : state) : state :=
  mkState (planetMeshes s) (orbitLines s) (orbitsVisible s) v (t s) (loading s).

Definition set_t (v : Qc) (s : state) : state :=
  mkState (planetMeshes s) (orbitLines s) (orbitsVisible s) (speed s) v (loading s).

(** An exception thrown inside the [async] function. *)
Inductive result (A : Type) :=
| Ok (a : A)
| Throw (err : string).
Arguments Ok {A} a.
Arguments Throw {A} err.

(** Line 323: the point of one record; reading [pos] of [null], or an
    index of an absent [pos], throws. *)
Definition to_point (scale : Qc) (d : entry) : result Vector3 :=
  match d with
  | Null => Throw "TypeError"
  | Obj None => Throw "TypeError"
  | Obj (Some pos) =>
      Ok (mkVector3 (over (pos !! 0%nat) scale) (over (pos !! 1%nat) scale)
                    (over (pos !! 2%nat) scale))
  end.

(** [orbitData.map(..)]: the first exception ends the traversal. *)
Fixpoint map_points (scale : Qc) (data : list entry) : result (list Vector3) :=
  match data with
  | [] => Ok []
  | d :: rest =>
      match to_point scale d with
      | Throw e => Throw e
      | Ok v =>
          match map_points scale rest with
          | Throw e => Throw e
          | Ok vs => Ok (v :: vs)
          end
      end
  end.

(** Lines 268-320 and 331: the loop of [loadPlanets] from the head of an
    iteration to its [await]; after the last planet the function
    returns. *)
Definition enter (ps : list planet) (s : state) : state :=
  match ps with
  | [] => set_loading Finished s
  | p :: rest => set_loading (Awaiting p rest) (set_mesh (name p) origin s)
  end.

(** Lines 320-329: [loadPlanets] resumed with what the fetch of the
    awaited planet settled to.  Nothing catches a rejection or an
    exception. *)
Definition resume (r : response) (s : state) : state :=
  match loading s with
  | Awaiting p rest =>
      match r with
      | Rejected _ => set_loading Aborted s
      | Parsed orbitData =>
          match map_points (scale p) orbitData with
          | Throw _ => set_loading Aborted s
          | Ok orbitPoints =>
              enter rest (set_line (name p) (mkLine orbitPoints true) s)
          end
      end
  | _ => s
  end.

(** Lines 239-241, 356-359: the globals when the script has run, with
    [loadPlanets] suspended at its first [await]. *)
Definition startup (ps : list planet) : state :=
  enter ps (mkState ∅ ∅ true 1 0 Finished).

(** Line 375: [Math.floor((t / 2) % position.count)]. *)
Definition pointIndex (t : Qc) (count : nat) : option Z :=
  floor (rem_num (t / Q2Qc 2) (Z.of_nat count)).

(** [Vector3.fromBufferAttribute]: the components read at [index], which
    are [undefined] outside the buffer. *)
Definition fromBufferAttribute (position : list Vector3) (index : option Z) : Vector3 :=
  default undefined3 (at_index position index).

(** Lines 370-385: the body of the loop over the planets. *)
Definition body (s : state) (p : planet) : state :=
  match planetMeshes s !! name p with
  | Some _ =>
      match orbitLines s !! name p with
      | Some orbit =>
          let position := points orbit in
          let index := pointIndex (t s) (length position) in
          set_mesh (name p) (fromBufferAttribute position index) s
      | None => s
      end
  | None => s
  end.

(** Where the body puts the mesh of [p], when it moves it. *)
Definition target (s : state) (p : planet) : option Vector3 :=
  match planetMeshes s !! name p, orbitLines s !! name p with
  | Some _, Some orbit =>
      Some (fromBufferAttribute (points orbit)
              (pointIndex (t s) (length (points orbit))))
  | _, _ => None
  end.

(** Lines 360-389. *)
Definition animate_on (ps : list planet) (s : state) : state :=
  foldl body (set_t (t s + speed s) s) ps.

Definition animate : state → state := animate_on planets.

(** [n] frames in a row. *)
Definition frames (n : nat) (ps : list planet) (s : state) : state :=
  Nat.iter n (animate_on ps) s.

(** Lines 395-400. *)
Definition toggleOrbits (s : state) : state :=
  let v := negb (orbitsVisible s) in
  mkState (planetMeshes s) ((λ l, mkLine (points l) v) <$> orbitLines s) v
          (speed s) (t s) (loading s).

(** Lines 403-409. *)
Definition speedUp (s : state) : state := set_speed (speed s * Q2Qc (15 # 10)) s.
Definition speedDown (s : state) : state := set_speed (speed s * Q2Qc (7 # 10)) s.

Inductive event :=
| Frame
| Resume (r : response)
| ToggleOrbits
| SpeedUp
| SpeedDown.

Definition step (ps : list planet) (s : state) (e : event) : state :=
  match e with
  | Frame => animate_on ps s
  | Resume r => resume r s
  | ToggleOrbits => toggleOrbits s
  | SpeedUp => speedUp s
  | SpeedDown => speedDown s
  end.

Definition run (ps : list planet) (es : list event) (s : state) : state :=
  foldl (step ps) s es.

End Polyline.

(** ** The configurations of the specification's scenarios *)
Module Scenario.

(** The three samples of the looping scenario. *)
Definition track : list entry :=
  [ Obj (Some [Q2Qc 0; Q2Qc 0; Q2Qc 0]);
    Obj (Some [Q2Qc 10; Q2Qc 0; Q2Qc 0]);
    Obj (Some [Q2Qc 20; Q2Qc 0; Q2Qc 0]) ].

Definition at_x (x : Z) : Vector3 :=
  mkVector3 (Some (Qc_of_Z x)) (Some (Qc_of_Z 0)) (Some (Qc_of_Z 0)).

(** A file with one record too short, one without [pos] and a [null]. *)
Definition ragged : list entry :=
  [ Obj (Some [Q2Qc 1; Q2Qc 2; Q2Qc 3]);
    Obj (Some [Q2Qc 1; Q2Qc 2]);
    Obj None;
    Null;
    Obj (Some [Q2Qc 4; Q2Qc 5; Q2Qc 6]) ].

(** One body with the given scale factor, in the raw-sample version,
    with [track] loaded. *)
Definition probe (k : Qc) : Sampled.planet :=
  Sampled.mkPlanet "Probe" "probe_positions.json" (Q2Qc 1) 0x888888 k.

Definition loaded (k : Qc) : Sampled.state :=
  Sampled.load (probe k) (Parsed track) (Sampled.startup [probe k]).

(** The same body in the orbit-line version; its scale divides. *)
Definition tracer (k : Qc) : Polyline.planet :=
  Polyline.mkPlanet "Probe" (Q2Qc 1) k.

Definition traced (k : Qc) : Polyline.state :=
  Polyline.resume (Parsed track) (Polyline.startup [tracer k]).

(** [loaded 1] with the mesh somewhere else and one more console line. *)
Definition moved_aside : Sampled.state :=
  Sampled.console_log Sampled.LogAllLoaded
    (Sampled.set_mesh "Probe" (at_x 99) (loaded 1)).

(** [ragged] loaded and one frame played: the counter stands at 1, where
    the record has two coordinates. *)
Definition ragged_second : Sampled.state :=
  Sampled.animate_with 1 [probe 1]
    (Sampled.load (probe 1) (Parsed ragged) (Sampled.startup [probe 1])).




(** The orbit-line version on a file without records. *)
Definition traced_empty : Polyline.state :=
  Polyline.resume (Parsed []) (Polyline.startup [tracer 1]).

(** The first fetch of [loadPlanets] is rejected, so that a response
    arriving later finds nothing waiting for it; against the run in which
    the first two fetches are answered. *)
Definition mercury_fails : Polyline.state :=
  Polyline.run Polyline.planets
    [Polyline.Resume (Rejected "404"); Polyline.Resume (Parsed track); Polyline.Frame]
    (Polyline.startup Polyline.planets).

Definition mercury_loads : Polyline.state :=
  Polyline.run Polyline.planets
    [Polyline.Resume (Parsed track); Polyline.Resume (Parsed track); Polyline.Frame]
    (Polyline.startup Polyline.planets).

(** The orbits are hidden while the first file is still on its way. *)
Definition hidden_then_loaded : Polyline.state :=
  Polyline.run Polyline.planets
    [Polyline.ToggleOrbits; Polyline.Resume (Parsed track)]
    (Polyline.startup Polyline.planets).

(** A frame, the speed-up button, a frame. *)
Definition first_frame : Polyline.state :=
  Polyline.animate (Polyline.startup Polyline.planets).

Definition faster_frame : Polyline.state :=
  Polyline.animate (Polyline.speedUp first_frame).

(** Mercury's file is missing; Venus loads; the loop starts and runs. *)
Definition mercury_missing : list Sampled.event :=
  [ Sampled.Settle Sampled.mercury (Rejected "404");
    Sampled.Settle Sampled.venus (Parsed track);
    Sampled.Start; Sampled.Frame ].

(** Every file is missing. *)
Definition all_missing : list Sampled.event :=
  (λ p, Sampled.Settle p (Rejected "404")) <$> Sampled.planets.

(** What can still happen after [loadPlanets] has stopped. *)
Definition afterwards : list Polyline.event :=
  [ Polyline.Resume (Parsed track); Polyline.Frame; Polyline.ToggleOrbits;
    Polyline.SpeedUp; Polyline.Frame ].

End Scenario.

(** ** Version 1: the rotating cube (lines 1-26) *)
Module Cube.

(** The rotation of the cube about its first two axes. *)
Record state := mkState { rotation_x : Qc; rotation_y : Qc }.

(** Line 14: a fresh mesh is not rotated. *)
Definition startup : state := mkState 0 0.

(** Lines 19-26. *)
Definition animate (s : state) : state :=
  mkState (rotation_x s + Q2Qc (1 # 100)) (rotation_y s + Q2Qc (1 # 100)).

(** [n] calls of the animation loop. *)
Definition frames (n : nat) (s : state) : state := Nat.iter n animate s.

End Cube.

(** ** Doubles and 32-bit floats *)
Module Ieee.

(** A binary format: the number of bits of the significand and the
    exponents of the smallest and of the largest binade of its normal
    numbers. *)
Record format := mkFormat { prec : Z; emin : Z; emax : Z }.

Definition binary64 : format := mkFormat 53 (-1022) 1023.
Definition binary32 : format := mkFormat 24 (-126) 127.

Definition pow2 (e : Z) : Q := (2 ^ e)%Q.

(** The binade of a positive number: the [e] with 2^e ≤ q < 2^(e+1). *)
Definition ilog2 (q : Q) : Z :=
  let e := (Z.log2 (Qnum q) - Z.log2 (Zpos (Qden q)))%Z in
  if Qle_bool (pow2 e) q then e else (e - 1)%Z.

(** The nearest integer, the even one of two that are equally near. *)
Definition rne (x : Q) : Z :=
  let f := Qfloor x in
  match (x - inject_Z f ?= 1 # 2)%Q with
  | Lt => f
  | Gt => (f + 1)%Z
  | Eq => if Z.even f then f else (f + 1)%Z
  end.

(** The binade that the rounding of a positive [x] works in: the numbers
    below the smallest normal binade are spaced as those in it. *)
Definition binade (fmt : format) (x : Q) : Z := Z.max (ilog2 x) (emin fmt).

(** The unit in the last place: the distance between the numbers of the
    format around [x]. *)
Definition ulp (fmt : format) (x : Q) : Q := pow2 (binade fmt x - (prec fmt - 1)).

(** The number of the format nearest to a positive [x], were there no
    largest one. *)
Definition nearest (fmt : format) (x : Q) : Q :=
  (inject_Z (rne (x / ulp fmt x)) * ulp fmt x)%Q.

(** Past the largest binade the result is an infinity ([None]). *)
Definition round_pos (fmt : format) (x : Q) : option Q :=
  let y := nearest fmt x in
  if Qle_bool (pow2 (emax fmt + 1)) y then None else Some y.

(** Rounding to nearest, ties to even. *)
Definition round (fmt : format) (x : Q) : option Q :=
  match Qnum x with
  | Z0 => Some 0%Q
  | Zpos _ => round_pos fmt x
  | Zneg _ => Qopp <$> round_pos fmt (- x)%Q
  end.

End Ieee.

(** The number of a format nearest to a number, and the unit in the last
    place of the format around it. *)
Definition rounded (fmt : Ieee.format) (x : Qc) : jsnum := Q2Qc <$> Ieee.round fmt x.

Definition ulp_of (fmt : Ieee.format) (x : Qc) : Qc := Q2Qc (Ieee.ulp fmt x).

(** ** The counters in double arithmetic *)
Module Doubles.

(** The double and the 32-bit float nearest to a number. *)
Definition double (x : Qc) : jsnum := rounded Ieee.binary64 x.
Definition fround (x : Qc) : jsnum := rounded Ieee.binary32 x.

(** [a + b], [a - b] and [a * b]: the exact result rounded to a double.  An
    operand that is not a finite number gives a result that is not one. *)
Definition plus (a b : jsnum) : jsnum :=
  match a, b with
  | Some x, Some y => double (x + y)
  | _, _ => None
  end.

Definition minus (a b : jsnum) : jsnum :=
  match a, b with
  | Some x, Some y => double (x - y)
  | _, _ => None
  end.

Definition times (a b : jsnum) : jsnum :=
  match a, b with
  | Some x, Some y => double (x * y)
  | _, _ => None
  end.

(** The unit in the last place of the doubles around [x]. *)
Definition ulp (x : Qc) : Qc := ulp_of Ieee.binary64 x.

(** The order of numbers that are not negative, [None] being the
    infinity. *)
Definition le (a b : jsnum) : Prop :=
  match a, b with
  | Some x, Some y => x ≤ y
  | _, None => True
  | None, Some _ => False
  end.

Definition lt (a b : jsnum) : Prop :=
  match a, b with
  | Some x, Some y => x < y
  | Some _, None => True
  | None, _ => False
  end.

(** Lines 38 and 186 of the raw-sample version: the literal [0.1] is the
    double nearest to 1/10. *)
Definition FRAME_SPEED : jsnum := double (Q2Qc (1 # 10)).

Definition next_frameIndex (frameIndex : jsnum) : jsnum := plus frameIndex FRAME_SPEED.

(** Lines 358-359, 368 and 403-409 of the orbit-line version. *)
Record clock := mkClock { t : jsnum; speed : jsnum }.

Definition startup : clock := mkClock (Some 0) (Some 1).

Definition animate (c : clock) : clock := mkClock (plus (t c) (speed c)) (speed c).

Definition speedUp (c : clock) : clock :=
  mkClock (t c) (times (speed c) (double (Q2Qc (15 # 10)))).

Definition speedDown (c : clock) : clock :=
  mkClock (t c) (times (speed c) (double (Q2Qc (7 # 10)))).

Inductive event :=
| Frame
| SpeedUp
| SpeedDown.

Definition step (c : clock) (e : event) : clock :=
  match e with
  | Frame => animate c
  | SpeedUp => speedUp c
  | SpeedDown => speedDown c
  end.

Definition run (es : list event) (c : clock) : clock := foldl step c es.

(** What a counter can hold here: a double that is not negative, or the
    infinity. *)
Definition held (a : jsnum) : Prop :=
  match a with
  | Some x => 0 ≤ x ∧ double x = Some x
  | None => True
  end.

End Doubles.

(** ** The star fields (lines 140-156 and 334-354) *)
Module Starfield.

(** [Math.random] is the sequence of the numbers it returns; the number of
    calls made so far is threaded through the loops. *)
Definition spread (side : Qc) (r : Qc) : Qc := (r - Q2Qc (1 # 2)) * side.

(** Lines 147-149: what a slot of the typed array holds after the
    assignment of [(Math.random() - 0.5) * side]: the difference and the
    product are those of doubles, and the array, a [Float32Array], keeps
    the 32-bit float nearest to what it is assigned. *)
Definition stored (side : Qc) (r : Qc) : jsnum :=
  Doubles.times (Doubles.minus (Some r) (Some (Q2Qc (1 # 2)))) (Some side)
    ≫= Doubles.fround.

(** Lines 145-150: one pass of the loop of [createStarfield], writing the
    three slots of star [i]. *)
Definition fill (rnd : nat → Qc) (st : nat * list jsnum) (i : nat) : nat * list jsnum :=
  let i3 := (i * 3)%nat in
  let positions := <[i3 := stored (Q2Qc 10000) (rnd (st.1))]> (st.2) in
  let positions := <[(i3 + 1)%nat := stored (Q2Qc 10000) (rnd (st.1 + 1)%nat)]> positions in
  let positions := <[(i3 + 2)%nat := stored (Q2Qc 10000) (rnd (st.1 + 2)%nat)]> positions in
  ((st.1 + 3)%nat, positions).

(** Lines 140-150, raw-sample version ([starCount] is 5000 there): the
    number of calls of [Math.random] and the array handed to the buffer
    attribute, which starts filled with zeros. *)
Definition createStarfield (rnd : nat → Qc) (starCount : nat) : nat * list jsnum :=
  foldl (fill rnd) (0%nat, replicate (starCount * 3) (Some 0)) (seq 0 starCount).

(** Lines 339-344: one pass of the loop of [createStarField]. *)
Definition push (rnd : nat → Qc) (st : nat * list Qc) (i : nat) : nat * list Qc :=
  let x := spread (Q2Qc 20000) (rnd (st.1)) in
  let y := spread (Q2Qc 20000) (rnd (st.1 + 1)%nat) in
  let z := spread (Q2Qc 20000) (rnd (st.1 + 2)%nat) in
  ((st.1 + 3)%nat, st.2 ++ [x; y; z]).

(** Lines 334-344, orbit-line version ([starCount] is 10000 there). *)
Definition createStarField (rnd : nat → Qc) (starCount : nat) : nat * list Qc :=
  foldl (push rnd) (0%nat, []) (seq 0 starCount).

(** A generator that stays within [0, 1), as [Math.random] does. *)
Definition unit_interval (rnd : nat → Qc) : Prop := ∀ k, 0 ≤ rnd k ∧ rnd k < 1.

End Starfield.

(** ** Records of any shape: what [res.json()] can put into a file's array *)
Module Json.

(** A JavaScript string: the sequence of its UTF-16 code units. *)
Definition jstring := list N.

Definition of_string (s : string) : jstring :=
  (λ a, Ascii.N_of_ascii a) <$> String.list_ascii_of_string s.

#[local] Set Warnings "-register-all".

(** A value of [JSON.parse].  A number is finite or, past the range of the
    doubles (as [1e400]), an infinity, which is [None]. *)
Inductive value :=
| JNull
| JBool (b : bool)
| JNum (n : jsnum)
| JStr (s : jstring)
| JArr (items : list value)
| JObj (fields : list (jstring * value)).

(** The conversion to a boolean that [&&] applies. *)
Definition truthy (v : value) : bool :=
  match v with
  | JNull => false
  | JBool b => b
  | JNum (Some q) => negb (bool_decide (q = 0))
  | JNum None => true
  | JStr s => negb (bool_decide (s = []))
  | JArr _ => true
  | JObj _ => true
  end.

(** The own property [key] of an object, [undefined] ([None]) when it has
    none; of two members with the same key the later one counts. *)
Fixpoint own (fields : list (jstring * value)) (key : jstring) : option value :=
  match fields with
  | [] => None
  | kv :: rest =>
      match own rest key with
      | Some v => Some v
      | None => if decide (kv.1 = key) then Some (kv.2) else None
      end
  end.

(** [v.pos] on a truthy value: only an object can have the property. *)
Definition pos_of (v : value) : option value :=
  match v with
  | JObj fields => own fields (of_string "pos")
  | _ => None
  end.

(** [v.length] on a truthy value: the number of elements of an array, the
    number of code units of a string, the property of that name of an
    object, and [undefined] on a number or [true]. *)
Definition length_of (v : value) : option value :=
  match v with
  | JArr items => Some (JNum (Some (Qc_of_Z (Z.of_nat (length items)))))
  | JStr s => Some (JNum (Some (Qc_of_Z (Z.of_nat (length s)))))
  | JObj fields => own fields (of_string "length")
  | _ => None
  end.

(** [v === 3] *)
Definition is_three (v : option value) : bool :=
  match v with
  | Some (JNum (Some q)) => bool_decide (q = Q2Qc 3)
  | _ => false
  end.

(** [entry && entry.pos && entry.pos.length === 3] on what an index of the
    array delivers ([None] past its end); when the test holds, the value of
    [entry.pos]. *)
Definition guard (entry : option value) : option value :=
  match entry with
  | Some e =>
      if truthy e then
        match pos_of e with
        | Some pos =>
            if truthy pos && is_three (length_of pos) then Some pos else None
        | None => None
        end
      else None
  | None => None
  end.

(** The code points of a string, as its iterator yields them: a high
    surrogate followed by a low one is one element. *)
Definition is_high (u : N) : bool := bool_decide (0xD800 ≤ u ≤ 0xDBFF)%N.
Definition is_low (u : N) : bool := bool_decide (0xDC00 ≤ u ≤ 0xDFFF)%N.

Fixpoint code_points (s : jstring) : list jstring :=
  match s with
  | [] => []
  | u :: rest =>
      match rest with
      | v :: rest' =>
          if is_high u && is_low v then [u; v] :: code_points rest'
          else [u] :: code_points rest
      | [] => [[u]]
      end
  end.

(** [const [x, y, z] = pos]: the first three elements an array or a string
    yields ([undefined] where it yields fewer); any other value is not
    iterable and the statement throws a [TypeError] ([None]). *)
Definition destructure (pos : value)
    : option (option value * option value * option value) :=
  match pos with
  | JArr items => Some (items !! 0%nat, items !! 1%nat, items !! 2%nat)
  | JStr s =>
      let cs := code_points s in
      Some (JStr <$> cs !! 0%nat, JStr <$> cs !! 1%nat, JStr <$> cs !! 2%nat)
  | _ => None
  end.

(** The conversion to a number that [*] applies to its operand.  On
    [undefined], [null], booleans and numbers it is fixed by the language;
    on strings, arrays and objects it parses their text, and is the
    function [coerce] here. *)
Definition to_number (coerce : value → jsnum) (v : option value) : jsnum :=
  match v with
  | None => None
  | Some JNull => Some 0
  | Some (JBool b) => Some (if b then 1 else 0)
  | Some (JNum n) => n
  | Some w => coerce w
  end.

(** An array of numbers, and a record of the typed files of the two
    versions, as values. *)
Definition of_coords (pos : list Qc) : value := JArr ((λ q, JNum (Some q)) <$> pos).

Definition of_entry (e : entry) : value :=
  match e with
  | Null => JNull
  | Obj None => JObj []
  | Obj (Some pos) => JObj [(of_string "pos", of_coords pos)]
  end.

(** A typed file, as the array of its records. *)
Definition of_file (data : list entry) : list value := of_entry <$> data.

End Json.

(** ** Lines 159-189 of the raw-sample version on records of any shape *)
Module Dynamic.
Import Json.

(** The globals that [animate] reads and writes; the console holds the
    lines of line 180. *)
Record state := mkState {
  planetMeshes : gmap string Vector3;
  planetPositions : gmap string (list value);
  frameIndex : Qc;
  console : list (value * Vector3)
}.

Definition set_mesh (k : string) (v : Vector3) (s : state) : state :=
  mkState (<[k := v]> (planetMeshes s)) (planetPositions s) (frameIndex s) (console s).

Definition set_frameIndex (f : Qc) (s : state) : state :=
  mkState (planetMeshes s) (planetPositions s) f (console s).

Definition console_log (pos : value) (v : Vector3) (s : state) : state :=
  mkState (planetMeshes s) (planetPositions s) (frameIndex s) (console s ++ [(pos, v)]).

(** What one pass of the [forEach] body does to a planet: it is skipped by
    line 166, kept where it is by line 170, moved, or line 171 throws. *)
Inductive outcome :=
| Skipped
| Kept (idx : option Z)
| Moved (idx : option Z) (pos : value) (x y z : option value)
| Threw (idx : option Z).

(** Lines 163-171, as a function of what the body reads. *)
Definition advance (frameIndex : Qc) (positions : option (list value))
    (mesh : option Vector3) : outcome :=
  match positions, mesh with
  | Some positions, Some _ =>
      if bool_decide (0 < length positions)%nat then
        let idx := Sampled.sampleIndex frameIndex (length positions) in
        match guard (at_index positions idx) with
        | Some pos =>
            match destructure pos with
            | Some (x, y, z) => Moved idx pos x y z
            | None => Threw idx
            end
        | None => Kept idx
        end
      else Skipped
  | _, _ => Skipped
  end.

Definition outcome_of (s : state) (p : Sampled.planet) : outcome :=
  advance (frameIndex s) (planetPositions s !! Sampled.name p)
          (planetMeshes s !! Sampled.name p).

(** Lines 173-177: the three products handed to [mesh.position.set]. *)
Definition placed (coerce : value → jsnum) (scale : Qc) (x y z : option value) : Vector3 :=
  mkVector3 (times (to_number coerce x) scale) (times (to_number coerce y) scale)
            (times (to_number coerce z) scale).

(** How a piece of code ends: normally, or by an exception that nothing
    catches; either way with the globals as it left them. *)
Inductive completion :=
| Normal (s : state)
| Abrupt (s : state).

Definition state_of (c : completion) : state :=
  match c with
  | Normal s => s
  | Abrupt s => s
  end.

(** Lines 162-184: the body of the [forEach]. *)
Definition body (coerce : value → jsnum) (s : state) (p : Sampled.planet) : completion :=
  match outcome_of s p with
  | Moved _ pos x y z =>
      let v := placed coerce (Sampled.ORBIT_SCALE p) x y z in
      let s1 := set_mesh (Sampled.name p) v s in
      Normal (if bool_decide (Sampled.name p = "Mars") && Sampled.on_the_minute (frameIndex s)
              then console_log pos v s1 else s1)
  | Threw _ => Abrupt s
  | _ => Normal s
  end.

(** [planets.forEach]: an exception ends the traversal. *)
Fixpoint forEach (coerce : value → jsnum) (ps : list Sampled.planet) (s : state)
    : completion :=
  match ps with
  | [] => Normal s
  | p :: rest =>
      match body coerce s p with
      | Normal s1 => forEach coerce rest s1
      | Abrupt s1 => Abrupt s1
      end
  end.

(** Lines 159-189: the next frame is requested first, so an exception in
    the traversal ends this call only, before line 186. *)
Definition animate_with (coerce : value → jsnum) (step : Qc) (ps : list Sampled.planet)
    (s : state) : completion :=
  match forEach coerce ps s with
  | Normal s1 => Normal (set_frameIndex (frameIndex s1 + step) s1)
  | Abrupt s1 => Abrupt s1
  end.

Definition animate (coerce : value → jsnum) : state → completion :=
  animate_with coerce Sampled.FRAME_SPEED Sampled.planets.

(** [n] animation frames in a row. *)
Definition frames (coerce : value → jsnum) (n : nat) (step : Qc)
    (ps : list Sampled.planet) (s : state) : state :=
  Nat.iter n (λ s, state_of (animate_with coerce step ps s)) s.

(** A pass that leaves the mesh alone and ends normally. *)
Definition still (o : outcome) : bool :=
  match o with
  | Skipped => true
  | Kept _ => true
  | _ => false
  end.

(** A state of the typed embedding, with its records as values. *)
Definition of_state (s : Sampled.state) : state :=
  mkState (Sampled.planetMeshes s) (of_file <$> Sampled.planetPositions s)
          (Sampled.frameIndex s) [].

(** The state [d] holds what the typed state [s] holds, the records as
    values. *)
Definition models (s : Sampled.state) (d : state) : Prop :=
  planetMeshes d = Sampled.planetMeshes s ∧
  planetPositions d = of_file <$> Sampled.planetPositions s ∧
  frameIndex d = Sampled.frameIndex s.

(** Two states in which every pass reads the same: the counter, the stored
    sequences and the bodies that have a mesh. *)
Definition alike (d d' : state) : Prop :=
  frameIndex d = frameIndex d' ∧
  planetPositions d = planetPositions d' ∧
  ∀ k, is_Some (planetMeshes d !! k) ↔ is_Some (planetMeshes d' !! k).

Definition thrown (c : completion) : bool :=
  match c with
  | Normal _ => false
  | Abrupt _ => true
  end.

End Dynamic.

(** ** Notions used by the properties below *)

(** A record on which line 323 does not throw. *)
Definition has_pos (d : entry) : bool :=
  match d with
  | Obj (Some _) => true
  | _ => false
  end.

(** The responses of a run of [loadPlanets], as events. *)
Definition answers (files : list (list entry)) : list Polyline.event :=
  (λ data, Polyline.Resume (Parsed data)) <$> files.

(** A generator for the examples: 0, 1/4, 1/2, 3/4, 0, ... *)
Definition quarters (k : nat) : Qc := Q2Qc (Z.of_nat (k mod 4) # 4).

(** What the loader and the controls of the orbit-line version keep. *)
Definition loader_inv (s : Polyline.state) : Prop :=
  (∀ k, is_Some (Polyline.orbitLines s !! k) → is_Some (Polyline.planetMeshes s !! k)) ∧
  (∀ k v, Polyline.planetMeshes s !! k = Some v → Polyline.orbitLines s !! k = None →
          v = origin) ∧
  (∀ p rest, Polyline.loading s = Polyline.Awaiting p rest →
             is_Some (Polyline.planetMeshes s !! Polyline.name p)) ∧
  0 < Polyline.speed s ∧ 0 ≤ Polyline.t s.

(** ** Runs used as instances of the properties below *)
Module Examples.

(** The looping scenario as a run: the load, the start, three frames. *)
Definition probing : list Sampled.event :=
  [ Sampled.Settle (Scenario.probe 1) (Parsed Scenario.track);
    Sampled.Start; Sampled.Frame; Sampled.Frame; Sampled.Frame ].

(** One file of nine has arrived. *)
Definition early : list Sampled.event :=
  [ Sampled.Settle Sampled.mercury (Parsed Scenario.track); Sampled.Start ].

(** Every file is missing and the loop starts all the same. *)
Definition late : list Sampled.event :=
  Scenario.all_missing ++ [Sampled.Start; Sampled.Frame].

(** The orbit-line version: a load, frames and a click. *)
Definition tracing : list Polyline.event :=
  [ Polyline.Resume (Parsed Scenario.track); Polyline.Frame; Polyline.SpeedUp;
    Polyline.Frame ].

(** The first fetch is rejected and frames follow. *)
Definition mercury_rejected : list Polyline.event :=
  [ Polyline.Resume (Rejected "404"); Polyline.Frame; Polyline.Frame ].

(** One good file for each of the nine planets. *)
Definition nine_tracks : list (list entry) := replicate 9 Scenario.track.

(** Records whose [pos] has length 3 without being an array:
    [{"pos": "abc"}] and [{"pos": {"length": 3}}]. *)
Definition pos_string : Json.value :=
  Json.JObj [(Json.of_string "pos", Json.JStr (Json.of_string "abc"))].

Definition pos_object : Json.value :=
  Json.JObj [(Json.of_string "pos",
              Json.JObj [(Json.of_string "length", Json.JNum (Some (Q2Qc 3)))])].

(** One body whose file holds the given records, the loop running. *)
Definition holding (records : list Json.value) : Dynamic.state :=
  Dynamic.mkState {["Probe" := origin]} {["Probe" := records]} 0 [].

(** The state [Scenario.ragged_second] with its records as values, and a
    conversion that finds no number in any text. *)
Definition ragged_values : Dynamic.state := Dynamic.of_state Scenario.ragged_second.

Definition no_number (v : Json.value) : jsnum := None.

(** The orbit-line version in double arithmetic after a frame and 103
    clicks on the speed-down button, and the speed it is left with. *)
Definition slowed : Doubles.clock :=
  Doubles.run (Doubles.Frame :: replicate 103 Doubles.SpeedDown) Doubles.startup.

Definition slowed_speed : Qc := default 0 (Doubles.speed slowed).

End Examples.

(** * Properties *)

(** ** Rounding and remainders *)

Lemma Qfloor_nonneg (q : Qc) : 0 ≤ q → (0 ≤ Qfloor q)%Z.
Proof.
  intros H. change 0%Z with (Qfloor (inject_Z 0)).
  apply Qfloor_resp_le. exact H.
Qed.

Lemma Qfloor_add_Z (x : Q) (n : Z) : Qfloor (x + inject_Z n) = (Qfloor x + n)%Z.
Proof.
  destruct x as [a b]. unfold Qplus, inject_Z, Qfloor. simpl.
  rewrite Z.mul_1_r, Pos.mul_1_r. apply Z.div_add; lia.
Qed.


Lemma this_plus (x y : Qc) : (this (x + y) == this x + this y)%Q.
Proof. unfold Qcplus. cbn [this Q2Qc]. apply Qred_correct. Qed.


Lemma this_mult (x y : Qc) : (this (x * y) == this x * this y)%Q.
Proof. unfold Qcmult. cbn [this Q2Qc]. apply Qred_correct. Qed.


Lemma Qfloor_Qc_add_Z (x : Qc) (n : Z) :
  Qfloor (x + Qc_of_Z n)%Qc = (Qfloor x + n)%Z.
Proof.
  rewrite <- Qfloor_add_Z. apply Qfloor_comp.
  exact (this_plus x (Qc_of_Z n)).
Qed.


Lemma rem_int_nonneg (a n : Z) :
  (0 ≤ a)%Z → (0 < n)%Z → rem_int a n = Some (a `mod` n)%Z.
Proof.
  intros Ha Hn. unfold rem_int. case_decide; [lia|].
  by rewrite Z.rem_mod_nonneg.
Qed.


Lemma at_index_Some {A} (a : list A) (z : Z) :
  (0 ≤ z)%Z → at_index a (Some z) = a !! Z.to_nat z.
Proof. intros Hz. unfold at_index. by rewrite decide_True. Qed.

(** ** Rounding to the nearest number of a binary format *)

Section ieee_rounding.
Import Ieee.
Local Open Scope Q_scope.

Lemma pow2_pos (e : Z) : 0 < pow2 e.
Proof. by apply Qpower_0_lt. Qed.

Lemma pow2_add (a b : Z) : pow2 (a + b) == pow2 a * pow2 b.
Proof. by apply Qpower_plus. Qed.

Lemma pow2_succ (e : Z) : pow2 (e + 1) == 2 * pow2 e.
Proof. rewrite pow2_add. unfold pow2 at 2. simpl. ring. Qed.

Lemma pow2_le (a b : Z) : (a <= b)%Z → pow2 a <= pow2 b.
Proof. intros H. by apply Qpower_le_compat_l. Qed.

Lemma pow2_lt (a b : Z) : (a < b)%Z → pow2 a < pow2 b.
Proof. intros H. by apply Qpower_lt_compat_l. Qed.

Lemma pow2_lt_inv (a b : Z) : pow2 a < pow2 b → (a < b)%Z.
Proof. intros H. by eapply Qpower_lt_compat_l_inv. Qed.

Lemma pow2_Z (e : Z) : (0 <= e)%Z → pow2 e == inject_Z (2 ^ e).
Proof. intros H. unfold pow2. by rewrite Zpower_Qpower. Qed.

Lemma Q_as_quotient (q : Q) : q == inject_Z (Qnum q) / inject_Z (Zpos (Qden q)).
Proof. destruct q as [n d]. apply Qmake_Qdiv. Qed.

Lemma ilog2_spec (q : Q) : 0 < q → pow2 (ilog2 q) <= q ∧ q < pow2 (ilog2 q + 1).
Proof.
  intros Hq.
  assert (0 < Qnum q)%Z as Hn.
  { destruct q as [n d]. unfold Qlt in Hq. cbn in *. lia. }
  set (a := Z.log2 (Qnum q)). set (b := Z.log2 (Zpos (Qden q))).
  destruct (Z.log2_spec (Qnum q) Hn) as [Ha1 Ha2]. fold a in Ha1, Ha2.
  destruct (Z.log2_spec (Zpos (Qden q)) eq_refl) as [Hb1 Hb2]. fold b in Hb1, Hb2.
  assert (0 <= a)%Z as Ha0 by apply Z.log2_nonneg.
  assert (0 <= b)%Z as Hb0 by apply Z.log2_nonneg.
  assert (0 < inject_Z (Zpos (Qden q))) as Hd by done.
  assert (q * inject_Z (Zpos (Qden q)) == inject_Z (Qnum q)) as Hqd.
  { rewrite (Q_as_quotient q) at 1. field. by intros H; rewrite H in Hd. }
  assert (pow2 a <= inject_Z (Qnum q) ∧ inject_Z (Qnum q) < pow2 (a + 1)) as [Hna Hna'].
  { rewrite !pow2_Z by lia. rewrite <- Zle_Qle, <- Zlt_Qlt.
    split; [done|]. by rewrite <- Z.add_1_r in Ha2. }
  assert (pow2 b <= inject_Z (Zpos (Qden q)) ∧ inject_Z (Zpos (Qden q)) < pow2 (b + 1))
    as [Hdb Hdb'].
  { rewrite !pow2_Z by lia. rewrite <- Zle_Qle, <- Zlt_Qlt.
    split; [done|]. by rewrite <- Z.add_1_r in Hb2. }
  (* q lies strictly between 2^(a-b-1) and 2^(a-b+1) *)
  assert (pow2 (a - b - 1) < q) as Hlow.
  { apply (Qmult_lt_r _ _ (inject_Z (Zpos (Qden q)))); [done|]. rewrite Hqd.
    eapply Qlt_le_trans; [|exact Hna].
    replace a with ((a - b - 1) + (b + 1))%Z at 2 by lia. rewrite (pow2_add (a - b - 1)).
    apply Qmult_lt_l; [apply pow2_pos | done]. }
  assert (q < pow2 (a - b + 1)) as Hhigh.
  { apply (Qmult_lt_r _ _ (inject_Z (Zpos (Qden q)))); [done|]. rewrite Hqd.
    eapply Qlt_le_trans; [exact Hna'|].
    replace (a + 1)%Z with ((a - b + 1) + b)%Z by lia. rewrite (pow2_add (a - b + 1)).
    apply Qmult_le_l; [apply pow2_pos | done]. }
  unfold ilog2. fold a b.
  destruct (Qle_bool (pow2 (a - b)) q) eqn:Hc.
  - apply Qle_bool_iff in Hc. done.
  - assert (q < pow2 (a - b)) as Hlt.
    { apply Qnot_le_lt. intros H. apply Qle_bool_iff in H. congruence. }
    split; [by apply Qlt_le_weak|]. by replace (a - b - 1 + 1)%Z with (a - b)%Z by lia.
Qed.

Lemma ilog2_unique (q : Q) (e : Z) :
  pow2 e <= q → q < pow2 (e + 1) → ilog2 q = e.
Proof.
  intros H1 H2.
  assert (0 < q) as Hq by (eapply Qlt_le_trans; [apply pow2_pos | exact H1]).
  destruct (ilog2_spec q Hq) as [H3 H4].
  assert (e < ilog2 q + 1)%Z by (apply pow2_lt_inv; eapply Qle_lt_trans; done).
  assert (ilog2 q < e + 1)%Z by (apply pow2_lt_inv; eapply Qle_lt_trans; done).
  lia.
Qed.

Lemma ilog2_mono (x y : Q) : 0 < x → x <= y → (ilog2 x <= ilog2 y)%Z.
Proof.
  intros Hx Hxy.
  assert (0 < y) as Hy by (eapply Qlt_le_trans; done).
  destruct (ilog2_spec x Hx) as [H1 _]. destruct (ilog2_spec y Hy) as [_ H2].
  assert (ilog2 x < ilog2 y + 1)%Z; [|lia].
  apply pow2_lt_inv. eapply Qle_lt_trans; [exact H1|]. eapply Qle_lt_trans; done.
Qed.

Lemma ilog2_comp (x y : Q) : 0 < x → x == y → ilog2 x = ilog2 y.
Proof.
  intros Hx Hxy. symmetry. destruct (ilog2_spec x Hx) as [H1 H2].
  apply ilog2_unique; by rewrite <- Hxy.
Qed.


Lemma floor_bounds (x : Q) : inject_Z (Qfloor x) <= x ∧ x < inject_Z (Qfloor x) + 1.
Proof.
  split; [apply Qfloor_le|].
  pose proof (Qlt_floor x) as H. by rewrite inject_Z_plus in H.
Qed.

Lemma floor_unique (k : Z) (x : Q) : inject_Z k <= x → x < inject_Z k + 1 → Qfloor x = k.
Proof.
  intros H1 H2. destruct (floor_bounds x) as [H3 H4].
  assert (inject_Z (Qfloor x) < inject_Z (k + 1)) as Ha by (rewrite inject_Z_plus; change (inject_Z 1) with 1; lra).
  assert (inject_Z k < inject_Z (Qfloor x + 1)) as Hb by (rewrite inject_Z_plus; change (inject_Z 1) with 1; lra).
  rewrite <- Zlt_Qlt in Ha, Hb. lia.
Qed.

Lemma rne_cases (x : Q) :
  (x - inject_Z (Qfloor x) < 1 # 2 ∧ rne x = Qfloor x) ∨
  (1 # 2 < x - inject_Z (Qfloor x) ∧ rne x = (Qfloor x + 1)%Z) ∨
  (x - inject_Z (Qfloor x) == 1 # 2 ∧
   rne x = if Z.even (Qfloor x) then Qfloor x else (Qfloor x + 1)%Z).
Proof.
  unfold rne. destruct (x - inject_Z (Qfloor x) ?= 1 # 2) eqn:Hc.
  - right; right. split; [|done]. by apply Qeq_alt.
  - left. split; [|done]. by apply Qlt_alt.
  - right; left. split; [|done]. by apply Qgt_alt.
Qed.

Lemma rne_comp (x y : Q) : x == y → rne x = rne y.
Proof.
  intros H. unfold rne. rewrite (Qfloor_comp x y H).
  assert ((x - inject_Z (Qfloor y) ?= 1 # 2) = (y - inject_Z (Qfloor y) ?= 1 # 2)) as ->;
    [|done].
  apply Qcompare_comp; [|done]. by rewrite H.
Qed.

Lemma rne_floor (x : Q) : (Qfloor x <= rne x <= Qfloor x + 1)%Z.
Proof.
  destruct (rne_cases x) as [[_ ->] | [[_ ->] | [_ ->]]]; [lia | lia |].
  destruct (Z.even _); lia.
Qed.

Lemma rne_near (k : Z) (x : Q) : inject_Z k <= x → x < inject_Z k + (1 # 2) → rne x = k.
Proof.
  intros H1 H2. assert (Qfloor x = k) as Hf by (apply floor_unique; lra).
  destruct (rne_cases x) as [[_ ->] | [[H _] | [H _]]]; [done | |]; rewrite Hf in H; lra.
Qed.

Lemma rne_Z (k : Z) : rne (inject_Z k) = k.
Proof. apply rne_near; lra. Qed.

Lemma rne_gt (k : Z) (x : Q) : inject_Z k + (1 # 2) < x → (k + 1 <= rne x)%Z.
Proof.
  intros H. destruct (floor_bounds x) as [H1 H2].
  assert (k <= Qfloor x)%Z as Hk.
  { assert (inject_Z k < inject_Z (Qfloor x + 1)) as Ha by (rewrite inject_Z_plus; change (inject_Z 1) with 1; lra).
    rewrite <- Zlt_Qlt in Ha. lia. }
  destruct (Z.eq_dec k (Qfloor x)) as [->|Hne]; [|pose proof (rne_floor x); lia].
  destruct (rne_cases x) as [[H3 _] | [[_ ->] | [H3 _]]]; [lra | lia | lra].
Qed.

Lemma rne_mono (x y : Q) : x <= y → (rne x <= rne y)%Z.
Proof.
  intros Hxy. pose proof (Qfloor_resp_le x y Hxy) as Hf.
  pose proof (rne_floor x) as Hx. pose proof (rne_floor y) as Hy.
  destruct (Z.eq_dec (Qfloor x) (Qfloor y)) as [Heq|Hne]; [|lia].
  destruct (rne_cases x) as [[Hrx Hx'] | [[Hrx Hx'] | [Hrx Hx']]];
    destruct (rne_cases y) as [[Hry Hy'] | [[Hry Hy'] | [Hry Hy']]];
    rewrite Hx', Hy', ?Heq; rewrite ?Heq in Hrx; try lia; try lra;
    destruct (Z.even (Qfloor y)); lia.
Qed.

Lemma rne_lower (k : Z) (x : Q) : inject_Z k <= x → (k <= rne x)%Z.
Proof. intros H. rewrite <- (rne_Z k). by apply rne_mono. Qed.

Lemma rne_upper (k : Z) (x : Q) : x <= inject_Z k → (rne x <= k)%Z.
Proof. intros H. rewrite <- (rne_Z k). by apply rne_mono. Qed.


Section format.
Variable fmt : format.
Hypothesis Hprec : (1 <= prec fmt)%Z.

Lemma ulp_bin (x : Q) : ulp fmt x = pow2 (binade fmt x - (prec fmt - 1)).
Proof. done. Qed.

Lemma ulp_pos (x : Q) : 0 < ulp fmt x.
Proof. apply pow2_pos. Qed.

Lemma pow2_bin (x : Q) : pow2 (binade fmt x) == pow2 (prec fmt - 1) * ulp fmt x.
Proof. rewrite ulp_bin, <- pow2_add. by replace (prec fmt - 1 + (binade fmt x - (prec fmt - 1)))%Z with (binade fmt x) by lia. Qed.

Lemma pow2_bin_succ (x : Q) : pow2 (binade fmt x + 1) == pow2 (prec fmt) * ulp fmt x.
Proof. rewrite ulp_bin, <- pow2_add. by replace (prec fmt + (binade fmt x - (prec fmt - 1)))%Z with (binade fmt x + 1)%Z by lia. Qed.

Lemma bin_upper (x : Q) : 0 < x → x < pow2 (binade fmt x + 1).
Proof.
  intros Hx. destruct (ilog2_spec x Hx) as [_ H].
  eapply Qlt_le_trans; [exact H|]. apply pow2_le. unfold binade. lia.
Qed.

Lemma bin_lower (x : Q) : 0 < x → (emin fmt <= ilog2 x)%Z → pow2 (binade fmt x) <= x.
Proof.
  intros Hx He. destruct (ilog2_spec x Hx) as [H _].
  unfold binade. by rewrite Z.max_l by lia.
Qed.

Lemma bin_unique (x : Q) (e : Z) :
  0 < x → (emin fmt <= e)%Z → x < pow2 (e + 1) → (e = emin fmt ∨ pow2 e <= x) → binade fmt x = e.
Proof.
  intros Hx He Hu Hl. destruct (ilog2_spec x Hx) as [H1 H2].
  assert (ilog2 x < e + 1)%Z by (apply pow2_lt_inv; eapply Qle_lt_trans; done).
  destruct Hl as [->|Hl]; [unfold binade; lia|].
  assert (e < ilog2 x + 1)%Z by (apply pow2_lt_inv; eapply Qle_lt_trans; done).
  unfold binade. lia.
Qed.

Lemma bin_mono (x y : Q) : 0 < x → x <= y → (binade fmt x <= binade fmt y)%Z.
Proof. intros Hx Hxy. pose proof (ilog2_mono x y Hx Hxy). unfold binade. lia. Qed.

Lemma bin_same (x y : Q) : 0 < x → x <= y → y < pow2 (binade fmt x + 1) → binade fmt y = binade fmt x.
Proof.
  intros Hx Hxy Hy. assert (0 < y) as Hy0 by lra.
  pose proof (bin_mono x y Hx Hxy).
  destruct (ilog2_spec y Hy0) as [H1 _].
  assert (ilog2 y < binade fmt x + 1)%Z by (apply pow2_lt_inv; eapply Qle_lt_trans; done).
  unfold binade in *. lia.
Qed.

Lemma ulp_of_bin (x y : Q) : binade fmt x = binade fmt y → ulp fmt x = ulp fmt y.
Proof. intros H. by rewrite !ulp_bin, H. Qed.

Lemma nearest_scaled (x : Q) :
  nearest fmt x == inject_Z (rne (x / ulp fmt x)) * ulp fmt x.
Proof. done. Qed.

(** A multiple of the unit in the last place is a number of the format. *)
Lemma nearest_on_grid (x : Q) (k : Z) : x == inject_Z k * ulp fmt x → nearest fmt x == x.
Proof.
  intros Hk. pose proof (ulp_pos x) as Hu. unfold nearest.
  assert (x / ulp fmt x == inject_Z k) as Hq.
  { rewrite Hk at 1. field. lra. }
  by rewrite (rne_comp _ _ Hq), rne_Z, <- Hk.
Qed.

Lemma scaled_upper (x : Q) : 0 < x → x / ulp fmt x < inject_Z (2 ^ prec fmt).
Proof.
  intros Hx. pose proof (ulp_pos x) as Hu. rewrite <- pow2_Z by lia.
  apply Qlt_shift_div_r; [done|]. rewrite <- pow2_bin_succ. by apply bin_upper.
Qed.

Lemma scaled_lower (x : Q) :
  0 < x → (emin fmt <= ilog2 x)%Z → inject_Z (2 ^ (prec fmt - 1)) <= x / ulp fmt x.
Proof.
  intros Hx He. pose proof (ulp_pos x) as Hu. rewrite <- pow2_Z by lia.
  apply Qle_shift_div_l; [done|]. rewrite <- pow2_bin. by apply bin_lower.
Qed.

Lemma scaled_nonneg (x : Q) : 0 < x → 0 <= x / ulp fmt x.
Proof.
  intros Hx. pose proof (ulp_pos x) as Hu. apply Qle_shift_div_l; [done|]. lra.
Qed.

Lemma nearest_nonneg (x : Q) : 0 < x → 0 <= nearest fmt x.
Proof.
  intros Hx. pose proof (ulp_pos x) as Hu. unfold nearest.
  apply Qmult_le_0_compat; [|lra].
  change 0 with (inject_Z 0). rewrite <- Zle_Qle. apply rne_lower. by apply scaled_nonneg.
Qed.

Lemma nearest_upper (x : Q) : 0 < x → nearest fmt x <= pow2 (binade fmt x + 1).
Proof.
  intros Hx. pose proof (ulp_pos x) as Hu. unfold nearest.
  rewrite pow2_bin_succ, pow2_Z by lia.
  apply Qmult_le_r; [done|]. rewrite <- Zle_Qle.
  apply rne_upper, Qlt_le_weak. by apply scaled_upper.
Qed.

Lemma nearest_lower (x : Q) :
  0 < x → (emin fmt <= ilog2 x)%Z → pow2 (binade fmt x) <= nearest fmt x.
Proof.
  intros Hx He. pose proof (ulp_pos x) as Hu. unfold nearest.
  rewrite pow2_bin, pow2_Z by lia.
  apply Qmult_le_r; [done|]. rewrite <- Zle_Qle.
  apply rne_lower. by apply scaled_lower.
Qed.

Lemma nearest_comp (x y : Q) : 0 < x → x == y → nearest fmt x == nearest fmt y.
Proof.
  intros Hx Hxy. unfold nearest.
  assert (ulp fmt x = ulp fmt y) as Hu.
  { apply ulp_of_bin. unfold binade. by rewrite (ilog2_comp x y Hx Hxy). }
  rewrite Hu. by rewrite (rne_comp (x / ulp fmt y) (y / ulp fmt y)) by (by rewrite Hxy).
Qed.

(** Rounding keeps the order. *)
Lemma nearest_mono (x y : Q) : 0 < x → x <= y → nearest fmt x <= nearest fmt y.
Proof.
  intros Hx Hxy. assert (0 < y) as Hy by lra.
  pose proof (bin_mono x y Hx Hxy) as Hb.
  destruct (Z.eq_dec (binade fmt x) (binade fmt y)) as [Heq|Hne].
  - unfold nearest. rewrite (ulp_of_bin x y Heq).
    pose proof (ulp_pos y) as Hu.
    apply Qmult_le_r; [done|]. rewrite <- Zle_Qle. apply rne_mono.
    apply Qle_shift_div_l; [done|].
    setoid_replace (x / ulp fmt y * ulp fmt y) with x using relation Qeq by (field; lra). done.
  - eapply Qle_trans; [by apply nearest_upper|].
    eapply Qle_trans; [|apply nearest_lower; [done|unfold binade in *; lia]].
    apply pow2_le. lia.
Qed.

(** A rounded number is a number of the format. *)
Lemma nearest_idem (x : Q) : 0 < x → 0 < nearest fmt x → nearest fmt (nearest fmt x) == nearest fmt x.
Proof.
  intros Hx Ha. pose proof (ulp_pos x) as Hu.
  set (m := rne (x / ulp fmt x)).
  assert (nearest fmt x == inject_Z m * ulp fmt x) as Hm by done.
  assert (m <= 2 ^ prec fmt)%Z as Hmu.
  { apply rne_upper, Qlt_le_weak. by apply scaled_upper. }
  destruct (Z.eq_dec m (2 ^ prec fmt)%Z) as [Htop|Htop].
  - (* the rounding reached the next binade *)
    assert (nearest fmt x == pow2 (binade fmt x + 1)) as Hv.
    { rewrite Hm, Htop, pow2_bin_succ, pow2_Z by lia. done. }
    assert (binade fmt (nearest fmt x) = (binade fmt x + 1)%Z) as Hb.
    { apply bin_unique; [done | unfold binade; lia | | right; rewrite Hv; apply Qle_refl].
      rewrite Hv. apply pow2_lt. lia. }
    apply (nearest_on_grid _ (2 ^ (prec fmt - 1))).
    rewrite ulp_bin, Hb, Hv, <- pow2_Z, <- pow2_add by lia.
    by replace (prec fmt - 1 + (binade fmt x + 1 - (prec fmt - 1)))%Z with (binade fmt x + 1)%Z by lia.
  - assert (nearest fmt x < pow2 (binade fmt x + 1)) as Hlt.
    { rewrite Hm, pow2_bin_succ, pow2_Z by lia.
      apply Qmult_lt_r; [done|]. rewrite <- Zlt_Qlt. lia. }
    assert (binade fmt (nearest fmt x) = binade fmt x) as Hb.
    { apply bin_unique; [done | unfold binade; lia | done |].
      destruct (Z_le_gt_dec (emin fmt) (ilog2 x)) as [He|He].
      - right. by apply nearest_lower.
      - left. unfold binade. lia. }
    apply (nearest_on_grid _ m). by rewrite (ulp_of_bin _ x Hb).
Qed.

(** An addend below half a unit in the last place is absorbed. *)
Lemma nearest_absorbs (x s : Q) (k : Z) :
  0 < x → x == inject_Z k * ulp fmt x → 0 <= s → s < ulp fmt x / 2 →
  nearest fmt (x + s) == x.
Proof.
  intros Hx Hk Hs0 Hs. pose proof (ulp_pos x) as Hu.
  assert (k < 2 ^ prec fmt)%Z as Hkp.
  { rewrite Zlt_Qlt, <- pow2_Z by lia.
    apply (Qmult_lt_r _ _ (ulp fmt x)); [done|].
    rewrite <- Hk, <- pow2_bin_succ. by apply bin_upper. }
  assert (x + s < pow2 (binade fmt x + 1)) as Hup.
  { rewrite pow2_bin_succ, pow2_Z by lia.
    assert (inject_Z (k + 1) <= inject_Z (2 ^ prec fmt)) as Hle by (rewrite <- Zle_Qle; lia).
    rewrite inject_Z_plus in Hle. change (inject_Z 1) with 1 in Hle.
    assert ((inject_Z k + 1) * ulp fmt x <= inject_Z (2 ^ prec fmt) * ulp fmt x) as Hmul
      by (apply Qmult_le_r; done).
    assert (s < ulp fmt x) by (apply (Qlt_le_trans _ (ulp fmt x / 2)); [done|];
      apply Qle_shift_div_r; lra).
    rewrite Hk at 1. lra. }
  assert (binade fmt (x + s) = binade fmt x) as Hb by (apply bin_same; [done | lra | done]).
  unfold nearest. rewrite (ulp_of_bin _ x Hb).
  rewrite (rne_near k); [by rewrite <- Hk|..].
  - apply Qle_shift_div_l; [done|]. rewrite <- Hk. lra.
  - apply Qlt_shift_div_r; [done|].
    assert (s < (1 # 2) * ulp fmt x) as Hs' by (setoid_replace ((1 # 2) * ulp fmt x) with (ulp fmt x / 2) using relation Qeq by field; done).
    rewrite Hk at 1. lra.
Qed.

(** An addend above half a unit in the last place moves the number. *)
Lemma nearest_moves (x s : Q) (k : Z) :
  0 < x → x == inject_Z k * ulp fmt x → ulp fmt x / 2 < s →
  x < nearest fmt (x + s).
Proof.
  intros Hx Hk Hs. pose proof (ulp_pos x) as Hu.
  assert (0 < s) as Hs0.
  { eapply Qle_lt_trans; [|exact Hs]. apply Qle_shift_div_l; lra. }
  assert ((1 # 2) * ulp fmt x < s) as Hs'
    by (setoid_replace ((1 # 2) * ulp fmt x) with (ulp fmt x / 2) using relation Qeq by field; done).
  destruct (Qlt_le_dec (x + s) (pow2 (binade fmt x + 1))) as [Hup|Hup].
  - assert (binade fmt (x + s) = binade fmt x) as Hb by (apply bin_same; [done | lra | done]).
    unfold nearest. rewrite (ulp_of_bin _ x Hb).
    assert (k + 1 <= rne ((x + s) / ulp fmt x))%Z as Hr.
    { apply rne_gt. apply Qlt_shift_div_l; [done|]. rewrite Hk at 2. lra. }
    rewrite Zle_Qle, inject_Z_plus in Hr. change (inject_Z 1) with 1 in Hr.
    assert ((inject_Z k + 1) * ulp fmt x <= inject_Z (rne ((x + s) / ulp fmt x)) * ulp fmt x)
      as Hmul by (apply Qmult_le_r; done).
    rewrite Hk at 1. lra.
  - eapply Qlt_le_trans; [by apply bin_upper|].
    assert (0 < pow2 (binade fmt x + 1)) as Hp by apply pow2_pos.
    assert (binade fmt (pow2 (binade fmt x + 1)) = (binade fmt x + 1)%Z) as Hb.
    { apply bin_unique; [done | unfold binade; lia | apply pow2_lt; lia | right; lra]. }
    assert (nearest fmt (pow2 (binade fmt x + 1)) == pow2 (binade fmt x + 1)) as Hg.
    { apply (nearest_on_grid _ (2 ^ (prec fmt - 1))).
      rewrite ulp_bin, Hb, <- pow2_Z, <- pow2_add by lia.
      by replace (prec fmt - 1 + (binade fmt x + 1 - (prec fmt - 1)))%Z with (binade fmt x + 1)%Z by lia. }
    rewrite <- Hg. by apply nearest_mono.
Qed.

End format.

End ieee_rounding.

Section rounded.
Import Ieee.
Variable fmt : format.
Hypothesis Hprec : (1 <= prec fmt)%Z.

Lemma this_Q2Qc (q : Q) : (this (Q2Qc q) == q)%Q.
Proof. apply Qred_correct. Qed.

Lemma this_opp (x : Qc) : (this (- x) == - this x)%Q.
Proof. apply Qred_correct. Qed.

Lemma Qnum_pos (q : Q) : (0 < q)%Q → ∃ p, Qnum q = Zpos p.
Proof.
  destruct q as [[|p|p] d]; unfold Qlt; cbn; intros H; try lia. by eexists.
Qed.

Lemma Qnum_neg (q : Q) : (q < 0)%Q → ∃ p, Qnum q = Zneg p.
Proof.
  destruct q as [[|p|p] d]; unfold Qlt; cbn; intros H; try lia. by eexists.
Qed.

Lemma Qnum_zero (q : Q) : (q == 0)%Q → Qnum q = 0%Z.
Proof. destruct q as [n d]. unfold Qeq. cbn. lia. Qed.

Lemma round_of_pos (q : Q) : (0 < q)%Q → round fmt q = round_pos fmt q.
Proof. intros [p Hp]%Qnum_pos. unfold round. by rewrite Hp. Qed.

Lemma round_of_neg (q : Q) : (q < 0)%Q → round fmt q = Qopp <$> round_pos fmt (- q)%Q.
Proof. intros [p Hp]%Qnum_neg. unfold round. by rewrite Hp. Qed.

Lemma round_of_zero (q : Q) : (q == 0)%Q → round fmt q = Some 0%Q.
Proof. intros Hq%Qnum_zero. unfold round. by rewrite Hq. Qed.

Lemma round_pos_Some (q a : Q) :
  round_pos fmt q = Some a ↔ a = nearest fmt q ∧ (nearest fmt q < pow2 (emax fmt + 1))%Q.
Proof.
  unfold round_pos. destruct (Qle_bool _ _) eqn:Hc.
  - apply Qle_bool_iff in Hc. split; [done|]. intros [_ H]. lra.
  - assert (nearest fmt q < pow2 (emax fmt + 1))%Q as Hlt.
    { apply Qnot_le_lt. intros H. apply Qle_bool_iff in H. congruence. }
    split; [by intros [= <-] | by intros [-> _]].
Qed.

Lemma round_pos_None (q : Q) :
  round_pos fmt q = None ↔ (pow2 (emax fmt + 1) <= nearest fmt q)%Q.
Proof.
  unfold round_pos. destruct (Qle_bool _ _) eqn:Hc.
  - apply Qle_bool_iff in Hc. done.
  - split; [done|]. intros H. apply Qle_bool_iff in H. congruence.
Qed.

(** What [rounded] is on a positive, a negative and a zero argument. *)
Lemma rounded_pos (x a : Qc) :
  0 < x →
  (rounded fmt x = Some a ↔
   a = Q2Qc (nearest fmt x) ∧ (nearest fmt x < pow2 (emax fmt + 1))%Q).
Proof.
  intros Hx. unfold rounded. rewrite round_of_pos by done.
  destruct (round_pos fmt x) as [b|] eqn:Hb; cbn.
  - apply round_pos_Some in Hb as [-> Hb]. split; [by intros [= <-] | by intros [-> _]].
  - apply round_pos_None in Hb. split; [done|]. intros [_ H]. lra.
Qed.

Lemma rounded_pos_None (x : Qc) :
  0 < x → (rounded fmt x = None ↔ (pow2 (emax fmt + 1) <= nearest fmt x)%Q).
Proof.
  intros Hx. unfold rounded. rewrite round_of_pos by done.
  destruct (round_pos fmt x) as [b|] eqn:Hb; cbn.
  - apply round_pos_Some in Hb as [-> Hb]. split; [done|]. intros H. lra.
  - by apply round_pos_None in Hb.
Qed.

Lemma rounded_zero : rounded fmt 0 = Some 0.
Proof. done. Qed.

Lemma round_pos_comp (q q' : Q) :
  (0 < q)%Q → (q == q')%Q → Q2Qc <$> round_pos fmt q = Q2Qc <$> round_pos fmt q'.
Proof.
  intros Hq Hqq'. pose proof (nearest_comp fmt q q' Hq Hqq') as Hn.
  destruct (round_pos fmt q) as [a|] eqn:Ha, (round_pos fmt q') as [a'|] eqn:Ha'; cbn.
  - apply round_pos_Some in Ha as [-> _]. apply round_pos_Some in Ha' as [-> _].
    f_equal. by apply Q2Qc_eq_iff.
  - apply round_pos_Some in Ha as [_ Ha]. apply round_pos_None in Ha'. lra.
  - apply round_pos_None in Ha. apply round_pos_Some in Ha' as [_ Ha']. lra.
  - done.
Qed.

Lemma Q2Qc_opp (q : Q) : Q2Qc (- q) = - Q2Qc q.
Proof. apply Qc_is_canon. rewrite this_opp, !this_Q2Qc. reflexivity. Qed.

Lemma Qc_pos (x : Qc) : 0 < x → (0 < this x)%Q.
Proof. intros H. exact H. Qed.

Lemma Qc_neg (x : Qc) : x < 0 → (this x < 0)%Q.
Proof. intros H. exact H. Qed.

Lemma Qc_nonneg (x : Qc) : 0 ≤ x → (0 <= this x)%Q.
Proof. intros H. exact H. Qed.

Lemma pos_Qc (x : Qc) : (0 < this x)%Q → 0 < x.
Proof. intros H. exact H. Qed.

Lemma neg_Qc (x : Qc) : (this x < 0)%Q → x < 0.
Proof. intros H. exact H. Qed.

Lemma Qc_opp_pos (x : Qc) : x < 0 → 0 < - x.
Proof. intros H%Qc_neg. apply pos_Qc. rewrite this_opp. lra. Qed.

Lemma rounded_neg (x : Qc) : x < 0 → rounded fmt x = Qcopp <$> rounded fmt (- x).
Proof.
  intros Hx. pose proof (Qc_opp_pos x Hx) as Hx'.
  unfold rounded. rewrite round_of_neg by done. rewrite (round_of_pos (this (- x))) by done.
  rewrite <- (round_pos_comp (- this x)%Q (this (- x)));
    [|apply Qc_neg in Hx; lra | by rewrite this_opp].
  destruct (round_pos fmt (- this x)%Q) as [a|]; [|done]. cbn. f_equal. apply Q2Qc_opp.
Qed.

Lemma rounded_nonneg (x a : Qc) : 0 ≤ x → rounded fmt x = Some a → 0 ≤ a.
Proof.
  intros Hx. destruct (Qc_eq_dec x 0) as [->|Hne]; [by intros [= <-]|].
  assert (0 < x) as Hpos by (by apply Qcle_lt_or_eq in Hx as [|]).
  intros [-> _]%rounded_pos; [|done].
  unfold Qcle. rewrite (this_Q2Qc (nearest fmt x)). by apply nearest_nonneg.
Qed.

(** Rounding keeps the order, and below a finite result is a finite one. *)
Lemma rounded_mono_pos (x y b : Qc) :
  0 < x → x ≤ y → rounded fmt y = Some b → ∃ a, rounded fmt x = Some a ∧ a ≤ b.
Proof.
  intros Hx Hxy Hb. assert (0 < y) as Hy by (by eapply Qclt_le_trans).
  apply rounded_pos in Hb as [-> Hb]; [|done].
  pose proof (nearest_mono fmt Hprec x y Hx Hxy) as Hm.
  exists (Q2Qc (nearest fmt x)). split.
  - apply rounded_pos; [done|]. split; [done|]. lra.
  - unfold Qcle. by rewrite !this_Q2Qc.
Qed.

Lemma rounded_mono_nonneg (x y b : Qc) :
  0 ≤ x → x ≤ y → rounded fmt y = Some b → ∃ a, rounded fmt x = Some a ∧ a ≤ b.
Proof.
  intros Hx Hxy Hb. destruct (Qc_eq_dec x 0) as [->|Hne].
  - exists 0. split; [done|]. by apply (rounded_nonneg y b).
  - apply (rounded_mono_pos x y b); [|done..]. by apply Qcle_lt_or_eq in Hx as [|].
Qed.

Lemma Qcopp_le (x y : Qc) : x ≤ y → - y ≤ - x.
Proof. unfold Qcle. rewrite !this_opp. lra. Qed.

Lemma rounded_mono (x y a b : Qc) :
  x ≤ y → rounded fmt x = Some a → rounded fmt y = Some b → a ≤ b.
Proof.
  intros Hxy Ha Hb.
  destruct (Qclt_le_dec x 0) as [Hx|Hx], (Qclt_le_dec y 0) as [Hy|Hy].
  - rewrite rounded_neg in Ha, Hb by done.
    destruct (rounded fmt (- x)) as [a'|] eqn:Ha'; [|done].
    destruct (rounded fmt (- y)) as [b'|] eqn:Hb'; [|done].
    injection Ha as <-. injection Hb as <-. apply Qcopp_le.
    destruct (rounded_mono_pos (- y) (- x) a') as (b'' & Hb'' & Hle);
      [by apply Qc_opp_pos | by apply Qcopp_le | done |].
    congruence.
  - rewrite rounded_neg in Ha by done.
    destruct (rounded fmt (- x)) as [a'|] eqn:Ha'; [|done]. injection Ha as <-.
    apply (Qcle_trans _ 0).
    + change 0 with (- 0). apply Qcopp_le.
      apply (rounded_nonneg (- x) a'); [by apply Qclt_le_weak, Qc_opp_pos | done].
    + by apply (rounded_nonneg y b).
  - exfalso. apply (Qclt_not_le y 0); [done|]. by eapply Qcle_trans.
  - destruct (rounded_mono_nonneg x y b) as (a' & Ha' & Hle); [done..|]. congruence.
Qed.

(** A rounded number is a number of the format. *)
Lemma rounded_idem_pos (x a : Qc) : 0 < x → rounded fmt x = Some a → rounded fmt a = Some a.
Proof.
  intros Hx [-> Hfin]%rounded_pos; [|done].
  pose proof (nearest_nonneg fmt x Hx) as H0.
  destruct (Qeq_dec (nearest fmt x) 0) as [Hz|Hnz].
  - assert (Q2Qc (nearest fmt x) = 0) as -> by (apply Qc_is_canon; by rewrite this_Q2Qc).
    done.
  - assert (0 < nearest fmt x)%Q as Hpos.
    { apply Qle_lteq in H0 as [|H0]; [done|]. by rewrite H0 in Hnz. }
    assert (0 < Q2Qc (nearest fmt x)) as Hpos' by (apply pos_Qc; by rewrite this_Q2Qc).
    pose proof (nearest_idem fmt Hprec x Hx Hpos) as Hi.
    assert (nearest fmt (Q2Qc (nearest fmt x)) == nearest fmt x)%Q as Hn.
    { rewrite <- Hi at 2. apply nearest_comp; [done|]. apply this_Q2Qc. }
    apply rounded_pos; [done|]. split; [by apply Q2Qc_eq_iff | lra].
Qed.

Lemma rounded_idem (x a : Qc) : rounded fmt x = Some a → rounded fmt a = Some a.
Proof.
  destruct (Qclt_le_dec x 0) as [Hx|Hx].
  - rewrite rounded_neg by done.
    destruct (rounded fmt (- x)) as [a'|] eqn:Ha'; [|done]. intros [= <-].
    pose proof (rounded_idem_pos (- x) a' (Qc_opp_pos x Hx) Ha') as Hi.
    assert (0 ≤ a') as H0
      by (apply (rounded_nonneg (- x) a'); [by apply Qclt_le_weak, Qc_opp_pos | done]).
    destruct (Qc_eq_dec a' 0) as [->|Hne]; [done|].
    assert (- a' < 0) as Hneg.
    { apply Qcle_lt_or_eq in H0 as [H0|]; [|done].
      apply neg_Qc. rewrite this_opp. apply Qc_pos in H0. lra. }
    rewrite rounded_neg by done. by rewrite Qcopp_involutive, Hi.
  - destruct (Qc_eq_dec x 0) as [->|Hne]; [by intros [= <-]|].
    apply rounded_idem_pos. by apply Qcle_lt_or_eq in Hx as [|].
Qed.

End rounded.

Section rounded_sums.
Import Ieee.
Variable fmt : format.
Hypothesis Hprec : (1 <= prec fmt)%Z.

Lemma rounded_grid (x : Qc) :
  0 < x → rounded fmt x = Some x → ∃ k, (this x == inject_Z k * ulp fmt x)%Q.
Proof.
  intros Hx [Hv _]%rounded_pos; [|done]. eexists.
  rewrite Hv at 1. rewrite this_Q2Qc. reflexivity.
Qed.

Lemma rounded_finite (x : Qc) :
  0 < x → rounded fmt x = Some x → (this x < pow2 (emax fmt + 1))%Q.
Proof.
  intros Hx [Hv Hf]%rounded_pos; [|done].
  rewrite Hv, this_Q2Qc. done.
Qed.

Lemma Qc_sum_pos (x s : Qc) : 0 < x → 0 ≤ s → 0 < x + s.
Proof.
  intros Hx%Qc_pos Hs%Qc_nonneg. apply pos_Qc. rewrite this_plus. lra.
Qed.

(** An addend below half a unit in the last place is absorbed. *)
Lemma rounded_absorbs (x s : Qc) :
  0 < x → rounded fmt x = Some x → 0 ≤ s → s + s < ulp_of fmt x →
  rounded fmt (x + s) = Some x.
Proof.
  intros Hx Hd Hs Hsmall.
  destruct (rounded_grid x Hx Hd) as [k Hk].
  pose proof (rounded_finite x Hx Hd) as Hfin.
  pose proof (Qc_sum_pos x s Hx Hs) as Hsum.
  assert (this s < ulp fmt x / 2)%Q as Hs'.
  { unfold Qclt, ulp_of in Hsmall. rewrite this_plus, this_Q2Qc in Hsmall.
    apply Qlt_shift_div_l; lra. }
  assert (nearest fmt (x + s)%Qc == this x)%Q as Hn.
  { transitivity (nearest fmt (this x + this s)%Q).
    - apply nearest_comp; [by apply Qc_pos | apply this_plus].
    - apply (nearest_absorbs fmt Hprec x s k);
        [by apply Qc_pos | done | by apply Qc_nonneg | done]. }
  apply rounded_pos; [done|]. split; [|by rewrite Hn].
  apply Qc_is_canon. by rewrite this_Q2Qc.
Qed.

(** An addend above half a unit in the last place moves the number. *)
Lemma rounded_moves (x s a : Qc) :
  0 < x → rounded fmt x = Some x → ulp_of fmt x < s + s →
  rounded fmt (x + s) = Some a → x < a.
Proof.
  intros Hx Hd Hbig Ha.
  destruct (rounded_grid x Hx Hd) as [k Hk].
  assert (ulp fmt x / 2 < this s)%Q as Hs'.
  { unfold Qclt, ulp_of in Hbig. rewrite this_plus, this_Q2Qc in Hbig.
    apply Qlt_shift_div_r; lra. }
  assert (0 ≤ s) as Hs.
  { pose proof (ulp_pos fmt x) as Hu. unfold Qcle. change (this 0) with 0%Q.
    assert (0 <= ulp fmt x / 2)%Q by (apply Qle_shift_div_l; lra). lra. }
  pose proof (Qc_sum_pos x s Hx Hs) as Hsum.
  apply rounded_pos in Ha as [-> _]; [|done].
  unfold Qclt. rewrite this_Q2Qc.
  rewrite <- (nearest_comp fmt (this x + this s)%Q (this (x + s)));
    [|apply Qc_pos in Hsum; rewrite this_plus in Hsum; done | by rewrite this_plus].
  by apply (nearest_moves fmt Hprec x s k); [apply Qc_pos|..].
Qed.

(** The unit in the last place, from the binade of the number. *)
Lemma ulp_of_below (x : Qc) (n : Z) :
  0 < x → (this x < pow2 (n + 1))%Q → (emin fmt <= n)%Z →
  (ulp fmt x <= pow2 (n - (prec fmt - 1)))%Q.
Proof.
  intros Hx%Qc_pos Hn He. destruct (ilog2_spec x Hx) as [H1 _].
  assert (ilog2 x < n + 1)%Z by (apply pow2_lt_inv; eapply Qle_lt_trans; done).
  apply pow2_le. unfold binade. lia.
Qed.

Lemma ulp_of_above (x : Qc) (n : Z) :
  (pow2 n <= this x)%Q → (pow2 (n - (prec fmt - 1)) <= ulp fmt x)%Q.
Proof.
  intros Hn.
  assert (0 < this x)%Q as Hx by (eapply Qlt_le_trans; [apply pow2_pos | done]).
  destruct (ilog2_spec x Hx) as [_ H2].
  assert (n < ilog2 x + 1)%Z by (apply pow2_lt_inv; eapply Qle_lt_trans; done).
  apply pow2_le. unfold binade. lia.
Qed.

End rounded_sums.

Section between.
Import Ieee.
Variable fmt : format.
Hypothesis Hprec : (1 <= prec fmt)%Z.

(** Between two numbers of the format, rounding stays between them. *)
Lemma rounded_between (lo x hi : Qc) :
  lo ≤ x → x ≤ hi → rounded fmt lo = Some lo → rounded fmt hi = Some hi →
  ∃ a, rounded fmt x = Some a ∧ lo ≤ a ∧ a ≤ hi.
Proof.
  intros Hlo Hhi Hdlo Hdhi.
  assert (is_Some (rounded fmt x)) as [a Ha].
  { destruct (Qclt_le_dec x 0) as [Hx|Hx].
    - assert (lo < 0) as Hlo0 by (by eapply Qcle_lt_trans).
      rewrite (rounded_neg fmt lo Hlo0) in Hdlo.
      destruct (rounded fmt (- lo)) as [b|] eqn:Hb; [|done].
      injection Hdlo as Hdlo.
      assert (b = - lo) as -> by (rewrite <- Hdlo; by rewrite Qcopp_involutive).
      destruct (rounded_mono_nonneg fmt Hprec (- x) (- lo) (- lo)) as (a' & Ha' & _);
        [by apply Qclt_le_weak, Qc_opp_pos | by apply Qcopp_le | done |].
      rewrite (rounded_neg fmt x Hx), Ha'. by eexists.
    - destruct (rounded_mono_nonneg fmt Hprec x hi hi) as (a' & Ha' & _); [done..|].
      by eexists. }
  exists a. split; [done|]. split.
  - by apply (rounded_mono fmt Hprec lo x lo a).
  - by apply (rounded_mono fmt Hprec x hi a hi).
Qed.

End between.

(** ** The advancer of the raw-sample version *)

Section sampled_frames.
Import Sampled.
Implicit Types (s : state) (p q : planet) (ps : list planet) (k : string).

Lemma sampleIndex_mod (f : Qc) (len : nat) :
  0 ≤ f → (0 < len)%nat →
  sampleIndex f len = Some (Qfloor f `mod` Z.of_nat len)%Z.
Proof.
  intros Hf Hl. apply rem_int_nonneg; [by apply Qfloor_nonneg | lia].
Qed.

(** The body writes nothing but the mesh of its own planet and the
    console. *)
Lemma body_frame s p :
  orbitPath (body s p) = orbitPath s ∧
  planetPositions (body s p) = planetPositions s ∧
  frameIndex (body s p) = frameIndex s ∧
  settled (body s p) = settled s ∧
  started (body s p) = started s.
Proof.
  unfold body. destruct (outcome_of s p); [done..|].
  by destruct (_ && _).
Qed.

Lemma body_mesh s p :
  planetMeshes (body s p) =
  match produced (outcome_of s p) with
  | Some v => <[name p := v]> (planetMeshes s)
  | None => planetMeshes s
  end.
Proof.
  unfold body. destruct (outcome_of s p); [done..|].
  by destruct (_ && _).
Qed.

Lemma body_mesh_other s p k :
  name p ≠ k → planetMeshes (body s p) !! k = planetMeshes s !! k.
Proof.
  intros Hk. rewrite body_mesh. destruct (produced _); [|done].
  by rewrite lookup_insert_ne.
Qed.

Lemma body_mesh_same s p :
  planetMeshes (body s p) !! name p =
  match produced (outcome_of s p) with
  | Some v => Some v
  | None => planetMeshes s !! name p
  end.
Proof.
  rewrite body_mesh. destruct (produced _); [|done].
  by rewrite lookup_insert_eq.
Qed.

Lemma outcome_of_body s q p :
  name q ≠ name p → outcome_of (body s q) p = outcome_of s p.
Proof.
  intros Hne. unfold outcome_of.
  destruct (body_frame s q) as (_ & -> & -> & _).
  by rewrite body_mesh_other.
Qed.

Lemma foldl_body_frame ps s :
  orbitPath (foldl body s ps) = orbitPath s ∧
  planetPositions (foldl body s ps) = planetPositions s ∧
  frameIndex (foldl body s ps) = frameIndex s ∧
  settled (foldl body s ps) = settled s ∧
  started (foldl body s ps) = started s.
Proof.
  revert s. induction ps as [|q ps IH]; intros s; [done|].
  cbn [foldl]. destruct (IH (body s q)) as (-> & -> & -> & -> & ->).
  apply body_frame.
Qed.

Lemma foldl_body_mesh_other ps s k :
  k ∉ name <$> ps → planetMeshes (foldl body s ps) !! k = planetMeshes s !! k.
Proof.
  revert s. induction ps as [|q ps IH]; intros s Hk; [done|].
  rewrite fmap_cons, not_elem_of_cons in Hk. destruct Hk as [Hq Hk].
  cbn [foldl]. rewrite IH by done. by apply body_mesh_other.
Qed.

(** With distinct names, the mesh of a planet ends where its own pass
    puts it. *)
Lemma foldl_body_mesh ps s p :
  NoDup (name <$> ps) → p ∈ ps →
  planetMeshes (foldl body s ps) !! name p =
  match produced (outcome_of s p) with
  | Some v => Some v
  | None => planetMeshes s !! name p
  end.
Proof.
  revert s. induction ps as [|q ps IH]; intros s Hnd Hp.
  { by apply elem_of_nil in Hp. }
  rewrite fmap_cons in Hnd. apply list.NoDup_cons in Hnd as [Hq Hnd].
  cbn [foldl]. apply elem_of_cons in Hp as [->|Hp].
  - rewrite foldl_body_mesh_other by done. apply body_mesh_same.
  - assert (name q ≠ name p) as Hne.
    { intros Heq. apply Hq. rewrite Heq. by apply list_elem_of_fmap_2. }
    rewrite IH by done. rewrite outcome_of_body by done.
    by rewrite body_mesh_other.
Qed.

(** A mesh that no planet of the list moves stays where it is. *)
Lemma foldl_body_mesh_still ps s k :
  (∀ p, p ∈ ps → name p = k → produced (outcome_of s p) = None) →
  planetMeshes (foldl body s ps) !! k = planetMeshes s !! k.
Proof.
  revert s. induction ps as [|q ps IH]; intros s Hk; [done|].
  cbn [foldl].
  assert (planetMeshes (body s q) !! k = planetMeshes s !! k) as Hq.
  { destruct (decide (name q = k)) as [Heq|Hne].
    - rewrite body_mesh, (Hk q); [done | by left | done].
    - by apply body_mesh_other. }
  rewrite IH; [done|]. intros p Hp Hpk.
  rewrite <- (Hk p); [|by right|done].
  unfold outcome_of. destruct (body_frame s q) as (_ & -> & -> & _).
  f_equal. by rewrite Hpk, Hq.
Qed.

Lemma animate_with_frame step ps s :
  planetMeshes (animate_with step ps s) = planetMeshes (foldl body s ps) ∧
  orbitPath (animate_with step ps s) = orbitPath s ∧
  planetPositions (animate_with step ps s) = planetPositions s ∧
  frameIndex (animate_with step ps s) = frameIndex s + step ∧
  settled (animate_with step ps s) = settled s ∧
  started (animate_with step ps s) = started s.
Proof.
  unfold animate_with, set_frameIndex. cbn.
  destruct (foldl_body_frame ps s) as (-> & -> & -> & -> & ->). done.
Qed.

(** The guard of line 166 decides between [Skipped] and the rest. *)
Lemma advance_skipped f c positions mesh :
  positions = None ∨ positions = Some [] ∨ mesh = None →
  advance f c positions mesh = Skipped.
Proof.
  intros [-> | [-> | ->]]; [done| |].
  - by destruct mesh.
  - by destruct positions.
Qed.
End sampled_frames.

(** Closed facts about running the model are settled by evaluation. *)
Ltac evaluate := apply (bool_decide_unpack _); vm_compute; exact I.

(** ** The sample index *)

(** C2. For a non-empty sequence of length L and a frame counter F ≥ 0, the
    index computed on line 167 is floor(F) mod L, it lies in [0, L), and the
    read of the sequence at that index finds a record. *)
Theorem C2_sample_index_in_bounds (positions : list entry) (F : Qc) :
  positions ≠ [] → 0 ≤ F →
  ∃ idx e,
    Sampled.sampleIndex F (length positions) = Some idx ∧
    idx = (Qfloor F `mod` Z.of_nat (length positions))%Z ∧
    (0 ≤ idx < Z.of_nat (length positions))%Z ∧
    at_index positions (Some idx) = Some e.
Proof.
  intros Hne HF.
  assert (0 < length positions)%nat as Hlen.
  { destruct positions; [done | cbn; lia]. }
  set (idx := (Qfloor F `mod` Z.of_nat (length positions))%Z).
  assert (0 ≤ idx < Z.of_nat (length positions))%Z as Hidx.
  { apply Z.mod_pos_bound. lia. }
  assert (is_Some (positions !! Z.to_nat idx)) as [e He]
    by (apply lookup_lt_is_Some_2; lia).
  exists idx, e. split; [by apply sampleIndex_mod|].
  split; [done|]. split; [done|]. by rewrite at_index_Some by lia.
Qed.

Lemma C2_witness :
  Scenario.track ≠ [] ∧ 0 ≤ Q2Qc (47 # 10) ∧
  ∃ idx e,
    Sampled.sampleIndex (Q2Qc (47 # 10)) (length Scenario.track) = Some idx ∧
    idx = (Qfloor (Q2Qc (47 # 10)) `mod` Z.of_nat (length Scenario.track))%Z ∧
    (0 ≤ idx < Z.of_nat (length Scenario.track))%Z ∧
    at_index Scenario.track (Some idx) = Some e.
Proof.
  split; [done|]. split; [by vm_compute|].
  apply (C2_sample_index_in_bounds Scenario.track (Q2Qc (47 # 10))).
  - done.
  - by vm_compute.
Defined.

Section sampled_claims.
Import Sampled.
Implicit Types (s : state) (p q : planet) (ps : list planet) (k : string).

Lemma sampleIndex_period (L k : nat) (F : Qc) :
  (0 < L)%nat → 0 ≤ F →
  sampleIndex (F + Qc_of_Z (Z.of_nat k * Z.of_nat L)) L = sampleIndex F L.
Proof.
  intros HL HF. unfold sampleIndex.
  rewrite Qfloor_Qc_add_Z.
  rewrite !rem_int_nonneg; try lia; try by apply Qfloor_nonneg.
  - f_equal. apply Z_mod_plus_full.
  - pose proof (Qfloor_nonneg F HF). nia.
Qed.


Lemma load_stores_raw p data s :
  planetPositions (load p (Parsed data) s) !! name p = Some data.
Proof. cbn. by rewrite lookup_insert_eq. Qed.

End sampled_claims.

(** ** Looping, determinism and malformed records (raw-sample version) *)

Section sampled_playback.
Import Sampled.
Implicit Types (s : state) (p q : planet) (ps : list planet) (k : string).

(** C6. Playback wraps cyclically.  For a non-empty sequence of length L
    the index floor(F) mod L is periodic in F with period L: adding any
    multiple of L to the counter gives the same index, and a pass of the
    advancer then decides the same for the body.  With the samples
    (0,0,0), (10,0,0), (20,0,0), scale factor 1, step 1 and the counter
    starting at 0, the first four frames put the body at (0,0,0),
    (10,0,0), (20,0,0) and (0,0,0) again. *)
Theorem C6_playback_wraps :
  (∀ (L k : nat) (F : Qc), (0 < L)%nat → 0 ≤ F →
     sampleIndex (F + Qc_of_Z (Z.of_nat k * Z.of_nat L)) L = sampleIndex F L) ∧
  (∀ s p positions (k : nat),
     planetPositions s !! name p = Some positions → 0 ≤ frameIndex s →
     outcome_of
       (set_frameIndex
          (frameIndex s + Qc_of_Z (Z.of_nat k * Z.of_nat (length positions))) s) p
     = outcome_of s p) ∧
  (λ n, planetMeshes (frames n 1 [Scenario.probe 1] (Scenario.loaded 1)) !! "Probe")
    <$> [1; 2; 3; 4]%nat
  = Some <$> [Scenario.at_x 0; Scenario.at_x 10; Scenario.at_x 20; Scenario.at_x 0].
Proof.
  split; [|split].
  - intros L k F HL HF. by apply sampleIndex_period.
  - intros s p positions k Hpos HF. unfold outcome_of. cbn. rewrite Hpos.
    destruct (planetMeshes s !! name p) as [m|]; [|done].
    unfold advance. case_bool_decide; [|done].
    by rewrite sampleIndex_period.
  - evaluate.
Qed.

Lemma C6_witness :
  ((0 < 3)%nat ∧ 0 ≤ Q2Qc (1 # 2) ∧
   sampleIndex (Q2Qc (1 # 2) + Qc_of_Z (Z.of_nat 2 * Z.of_nat 3)) 3 =
   sampleIndex (Q2Qc (1 # 2)) 3) ∧
  (planetPositions (Scenario.loaded 1) !! name (Scenario.probe 1) = Some Scenario.track ∧
   0 ≤ frameIndex (Scenario.loaded 1) ∧
   outcome_of
     (set_frameIndex
        (frameIndex (Scenario.loaded 1)
         + Qc_of_Z (Z.of_nat 2 * Z.of_nat (length Scenario.track)))
        (Scenario.loaded 1)) (Scenario.probe 1)
   = outcome_of (Scenario.loaded 1) (Scenario.probe 1)).
Proof.
  split.
  - split; [lia|]. split; [by vm_compute|].
    apply (proj1 C6_playback_wraps 3%nat 2%nat (Q2Qc (1 # 2))).
    + lia.
    + by vm_compute.
  - split; [evaluate|]. split; [by vm_compute|].
    apply (proj1 (proj2 C6_playback_wraps) (Scenario.loaded 1) (Scenario.probe 1)
             Scenario.track 2%nat).
    + evaluate.
    + by vm_compute.
Defined.

(** C8. The advancer is deterministic in the frame counter and the loaded
    samples: two states with the same counter and the same sequence for a
    body decide the same for it, whatever else differs (the previous
    position of the mesh, the console, the orbit lines), and whenever a
    position is produced both passes leave the mesh at that position. *)
Theorem C8_advancer_deterministic (step : Qc) ps s1 s2 p :
  NoDup (name <$> ps) → p ∈ ps →
  frameIndex s1 = frameIndex s2 →
  planetPositions s1 !! name p = planetPositions s2 !! name p →
  is_Some (planetMeshes s1 !! name p) →
  is_Some (planetMeshes s2 !! name p) →
  outcome_of s1 p = outcome_of s2 p ∧
  ∀ v, produced (outcome_of s1 p) = Some v →
       planetMeshes (animate_with step ps s1) !! name p = Some v ∧
       planetMeshes (animate_with step ps s2) !! name p = Some v.
Proof.
  intros Hnd Hp Hf Hpos [m1 Hm1] [m2 Hm2].
  assert (outcome_of s1 p = outcome_of s2 p) as Ho.
  { unfold outcome_of. by rewrite Hf, Hpos, Hm1, Hm2. }
  split; [done|]. intros v Hv.
  destruct (animate_with_frame step ps s1) as (-> & _).
  destruct (animate_with_frame step ps s2) as (-> & _).
  rewrite !foldl_body_mesh by done. by rewrite <- Ho, Hv.
Qed.

Lemma C8_witness :
  planetMeshes (animate_with 1 [Scenario.probe 1] (Scenario.loaded 1)) !! "Probe"
    = Some (Scenario.at_x 0) ∧
  planetMeshes (animate_with 1 [Scenario.probe 1] Scenario.moved_aside) !! "Probe"
    = Some (Scenario.at_x 0).
Proof.
  apply (C8_advancer_deterministic 1 [Scenario.probe 1] (Scenario.loaded 1)
           Scenario.moved_aside (Scenario.probe 1)).
  - evaluate.
  - apply list_elem_of_singleton. reflexivity.
  - reflexivity.
  - reflexivity.
  - evaluate.
  - evaluate.
  - evaluate.
Defined.


End sampled_playback.

(** ** Records of any shape (raw-sample version) *)

Section dynamic_records.
Import Json Dynamic.
Implicit Types (s : state) (p : Sampled.planet) (ps : list Sampled.planet) (k : string).

Lemma Qc_of_nat_three (n : nat) : Qc_of_Z (Z.of_nat n) = Q2Qc 3 ↔ n = 3%nat.
Proof.
  split; [|by intros ->; apply Qc_is_canon].
  intros H. apply (f_equal this) in H. cbn in H.
  injection H as H. lia.
Qed.

Lemma is_three_array (items : list value) :
  is_three (length_of (JArr items)) = bool_decide (length items = 3%nat).
Proof. cbn. apply bool_decide_ext, Qc_of_nat_three. Qed.

Lemma advance_guard_fails f positions mesh :
  guard (at_index positions (Sampled.sampleIndex f (length positions))) = None →
  advance f (Some positions) mesh = Skipped ∨
  advance f (Some positions) mesh = Kept (Sampled.sampleIndex f (length positions)).
Proof.
  intros H. unfold advance. destruct mesh; [|by left].
  case_bool_decide; [|by left]. rewrite H. by right.
Qed.

Lemma advance_moved_mesh f positions mesh idx pos x y z :
  advance f positions mesh = Moved idx pos x y z → is_Some mesh.
Proof. unfold advance. destruct positions, mesh; by eauto. Qed.

Lemma body_still coerce s p : still (outcome_of s p) = true → body coerce s p = Normal s.
Proof. unfold body. by destruct (outcome_of s p). Qed.

(** What a pass of the body leaves as it was. *)
Lemma body_state coerce s p :
  frameIndex (state_of (body coerce s p)) = frameIndex s ∧
  planetPositions (state_of (body coerce s p)) = planetPositions s ∧
  (∀ k, k ≠ Sampled.name p →
        planetMeshes (state_of (body coerce s p)) !! k = planetMeshes s !! k) ∧
  (∀ k, is_Some (planetMeshes (state_of (body coerce s p)) !! k) ↔
        is_Some (planetMeshes s !! k)).
Proof.
  unfold body. destruct (outcome_of s p) as [|idx|idx pos x y z|idx] eqn:Ho; try done.
  apply advance_moved_mesh in Ho.
  assert (∀ k, is_Some (<[Sampled.name p := placed coerce (Sampled.ORBIT_SCALE p) x y z]>
                          (planetMeshes s) !! k) ↔ is_Some (planetMeshes s !! k)) as Hs.
  { intros k. destruct (decide (k = Sampled.name p)) as [->|Hk].
    - rewrite lookup_insert_eq. split; [done | by eauto].
    - by rewrite lookup_insert_ne. }
  case_match; cbn; (split_and!; [done | done | | done]);
    intros k Hk; by rewrite lookup_insert_ne.
Qed.

Lemma forEach_state coerce ps s :
  frameIndex (state_of (forEach coerce ps s)) = frameIndex s ∧
  planetPositions (state_of (forEach coerce ps s)) = planetPositions s ∧
  (∀ k, is_Some (planetMeshes (state_of (forEach coerce ps s)) !! k) ↔
        is_Some (planetMeshes s !! k)).
Proof.
  revert s. induction ps as [|p ps IH]; intros s; [done|].
  cbn [forEach]. destruct (body_state coerce s p) as (Hf & Hp & _ & Hm).
  destruct (body coerce s p) as [s1|s1]; cbn [state_of] in *.
  - destruct (IH s1) as (-> & -> & Hm'). split_and!; [done | done |].
    intros k. by rewrite Hm'.
  - done.
Qed.

(** A body whose passes all end at line 166 or 170 keeps its mesh through
    the whole traversal, however the traversal ends. *)
Lemma forEach_still coerce ps s k :
  (∀ p, p ∈ ps → Sampled.name p = k →
        still (advance (frameIndex s) (planetPositions s !! k) (planetMeshes s !! k)) = true) →
  planetMeshes (state_of (forEach coerce ps s)) !! k = planetMeshes s !! k.
Proof.
  revert s. induction ps as [|p ps IH]; intros s Hs; [done|].
  cbn [forEach]. destruct (decide (Sampled.name p = k)) as [Hk|Hk].
  - rewrite body_still.
    + apply IH. intros q Hq Hqk. apply (Hs q); [by apply elem_of_cons; right | done].
    + unfold outcome_of. rewrite Hk. apply (Hs p); [by apply elem_of_cons; left | done].
  - destruct (body_state coerce s p) as (Hf & Hp & Hm & _).
    specialize (Hm k (not_eq_sym Hk)).
    destruct (body coerce s p) as [s1|s1]; cbn [state_of] in *; [|done].
    rewrite IH, Hm; [done|].
    intros q Hq Hqk. rewrite Hf, Hp, Hm.
    apply (Hs q); [by apply elem_of_cons; right | done].
Qed.

Lemma animate_with_state coerce (step : Qc) ps s :
  planetMeshes (state_of (animate_with coerce step ps s))
    = planetMeshes (state_of (forEach coerce ps s)) ∧
  planetPositions (state_of (animate_with coerce step ps s)) = planetPositions s ∧
  frameIndex (state_of (animate_with coerce step ps s))
    = match animate_with coerce step ps s with
      | Normal _ => frameIndex s + step
      | Abrupt _ => frameIndex s
      end.
Proof.
  unfold animate_with. destruct (forEach_state coerce ps s) as (Hf & Hp & _).
  destruct (forEach coerce ps s) as [s1|s1]; cbn [state_of] in *; by rewrite ?Hf.
Qed.

(** C9 fails as stated: a [pos] of length 3 need not be an array.  The
    record [{"pos": "abc"}] passes line 170 and the mesh is handed the
    products of its three characters; on [{"pos": {"length": 3}}] line 171
    throws, and the frame ends before the counter is advanced. *)
Lemma C9_length_three_without_array :
  guard (Some Examples.pos_string) = Some (JStr (of_string "abc")) ∧
  advance 0 (Some [Examples.pos_string]) (Some origin)
    = Moved (Some 0%Z) (JStr (of_string "abc")) (Some (JStr (of_string "a")))
            (Some (JStr (of_string "b"))) (Some (JStr (of_string "c"))) ∧
  advance 0 (Some [Examples.pos_object]) (Some origin) = Threw (Some 0%Z) ∧
  (∀ coerce,
     animate_with coerce Sampled.FRAME_SPEED [Scenario.probe 1]
       (Examples.holding [Examples.pos_object])
     = Abrupt (Examples.holding [Examples.pos_object])).
Proof.
  split_and!; [by vm_compute | by vm_compute | by vm_compute |].
  intros coerce. by vm_compute.
Qed.

(** C9, amended.  When the record at the computed index fails the test of
    line 170 (it is missing or falsy, it has no truthy [pos], or the
    length of its [pos] is not 3; for a [pos] that is an array: it has not
    exactly 3 elements), the pass of that body ends normally and leaves the
    mesh where it was, however the frame ends for the other bodies; the
    index was computed modulo the full length of the stored sequence, which
    is the raw file. *)
Theorem C9_rejected_record_keeps_position :
  (∀ coerce (step : Qc) ps s k positions,
     planetPositions s !! k = Some positions →
     guard (at_index positions (Sampled.sampleIndex (frameIndex s) (length positions)))
       = None →
     planetMeshes (state_of (animate_with coerce step ps s)) !! k = planetMeshes s !! k ∧
     (∀ p, Sampled.name p = k → body coerce s p = Normal s) ∧
     (∀ p, Sampled.name p = k →
           outcome_of s p = Skipped ∨
           outcome_of s p = Kept (Sampled.sampleIndex (frameIndex s) (length positions))) ∧
     (∀ p, Sampled.name p = k → positions ≠ [] → is_Some (planetMeshes s !! k) →
           outcome_of s p = Kept (Sampled.sampleIndex (frameIndex s) (length positions)))) ∧
  (guard None = None ∧
   (∀ e, truthy e = false ∨ pos_of e = None → guard (Some e) = None) ∧
   (∀ e pos, pos_of e = Some pos →
             truthy pos = false ∨ is_three (length_of pos) = false →
             guard (Some e) = None) ∧
   (∀ fields items, own fields (of_string "pos") = Some (JArr items) →
                    (guard (Some (JObj fields)) = None ↔ length items ≠ 3%nat))) ∧
  (∀ p data (s0 : Sampled.state),
     Sampled.planetPositions (Sampled.load p (Parsed data) s0) !! Sampled.name p
       = Some data).
Proof.
  split; [|split].
  - intros coerce step ps s k positions Hpos Hbad.
    assert (∀ p, Sampled.name p = k →
              outcome_of s p = Skipped ∨
              outcome_of s p = Kept (Sampled.sampleIndex (frameIndex s) (length positions)))
      as Ho.
    { intros p <-. unfold outcome_of. rewrite Hpos. by apply advance_guard_fails. }
    split_and!.
    + destruct (animate_with_state coerce step ps s) as (-> & _).
      apply forEach_still. intros p _ Hk. rewrite Hpos.
      by destruct (advance_guard_fails (frameIndex s) positions (planetMeshes s !! k) Hbad)
        as [-> | ->].
    + intros p Hk. apply body_still. by destruct (Ho p Hk) as [-> | ->].
    + done.
    + intros p Hk Hne [m Hm]. destruct (Ho p Hk) as [Hs|]; [|done].
      exfalso. revert Hs. unfold outcome_of. rewrite Hk, Hpos, Hm.
      unfold advance. rewrite bool_decide_true.
      * by rewrite Hbad.
      * destruct positions; [done | cbn; lia].
  - split_and!.
    + done.
    + intros e [He|He]; cbn; rewrite He; [done|]. by destruct (truthy e).
    + intros e pos He [Hp|Hp]; cbn; rewrite He, Hp; destruct (truthy e); try done;
        by rewrite andb_false_r.
    + intros fields items Hown.
      unfold guard, truthy, pos_of. rewrite Hown, is_three_array. cbn.
      case_bool_decide; by split.
  - intros p data s0. apply load_stores_raw.
Qed.

Lemma C9_witness :
  frameIndex Examples.ragged_values = 1 ∧
  planetPositions Examples.ragged_values !! "Probe" = Some (of_file Scenario.ragged) ∧
  at_index (of_file Scenario.ragged) (Some 1%Z)
    = Some (JObj [(of_string "pos", of_coords [Q2Qc 1; Q2Qc 2])]) ∧
  planetMeshes
    (state_of (animate_with Examples.no_number 1 [Scenario.probe 1] Examples.ragged_values))
    !! "Probe"
  = planetMeshes Examples.ragged_values !! "Probe".
Proof.
  split; [by vm_compute|]. split; [by vm_compute|]. split; [by vm_compute|].
  refine (proj1 (proj1 C9_rejected_record_keeps_position Examples.no_number 1
                   [Scenario.probe 1] Examples.ragged_values "Probe"
                   (of_file Scenario.ragged) _ _)).
  - by vm_compute.
  - by vm_compute.
Defined.

End dynamic_records.

(** ** The two embeddings of lines 159-189 *)

Section typed_records.
Import Json Dynamic.
Implicit Types (d : state) (p : Sampled.planet) (ps : list Sampled.planet) (k : string).

Lemma guard_of_entry (oe : option entry) :
  guard (of_entry <$> oe) =
  match oe with
  | Some (Obj (Some pos)) =>
      if bool_decide (length pos = 3%nat) then Some (of_coords pos) else None
  | _ => None
  end.
Proof.
  destruct oe as [[|[pos|]]|]; try done.
  unfold guard, of_entry, fmap, option_fmap, option_map, truthy, pos_of, own.
  cbn [fst snd]. rewrite decide_True by done.
  unfold of_coords at 1. cbn iota. rewrite andb_true_l.
  unfold of_coords at 1. by rewrite is_three_array, length_fmap.
Qed.

Lemma at_index_fmap {A B} (f : A → B) (l : list A) (i : option Z) :
  at_index (f <$> l) i = f <$> at_index l i.
Proof.
  unfold at_index. destruct i as [z|]; [|done].
  case_decide; [|done]. apply list_lookup_fmap.
Qed.

Lemma to_number_of_coords coerce (pos : list Qc) (i : nat) :
  to_number coerce (((λ q, JNum (Some q)) <$> pos) !! i) = pos !! i.
Proof. rewrite list_lookup_fmap. by destruct (pos !! i). Qed.

(** On typed records a pass decides as the typed embedding says. *)
Lemma typed_advance coerce (f c : Qc) (positions : option (list entry))
    (mesh : option Vector3) :
  match Sampled.advance f c positions mesh with
  | Sampled.Skipped => advance f (of_file <$> positions) mesh = Skipped
  | Sampled.Kept idx => advance f (of_file <$> positions) mesh = Kept idx
  | Sampled.Moved idx pos v =>
      ∃ x y z, advance f (of_file <$> positions) mesh = Moved idx (of_coords pos) x y z ∧
               placed coerce c x y z = v
  end.
Proof.
  unfold Sampled.advance, advance.
  destruct positions as [l|], mesh as [m|]; try done. cbn [fmap option_fmap option_map].
  replace (length (of_file l)) with (length l) by (unfold of_file; by rewrite length_fmap).
  destruct (bool_decide (0 < length l)%nat); [|done].
  unfold of_file. rewrite at_index_fmap, guard_of_entry.
  destruct (at_index l _) as [[|[pos|]]|]; try done.
  destruct (bool_decide (length pos = 3%nat)); [|done].
  eexists _, _, _. split; [done|].
  unfold placed. by rewrite !to_number_of_coords.
Qed.

Lemma models_body coerce (s : Sampled.state) d p :
  models s d →
  ∃ d', body coerce d p = Normal d' ∧ models (Sampled.body s p) d'.
Proof.
  intros (Hm & Hp & Hf). unfold body, Sampled.body, outcome_of, Sampled.outcome_of.
  rewrite Hm, Hp, Hf, lookup_fmap.
  pose proof (typed_advance coerce (Sampled.frameIndex s) (Sampled.ORBIT_SCALE p)
                (Sampled.planetPositions s !! Sampled.name p)
                (Sampled.planetMeshes s !! Sampled.name p)) as Ha.
  destruct (Sampled.advance _ _ _ _) as [|idx|idx pos v].
  - rewrite Ha. by eexists.
  - rewrite Ha. by eexists.
  - destruct Ha as (x & y & z & -> & <-). eexists. split; [done|].
    destruct (_ && _); unfold models; cbn; by rewrite Hm, Hp, Hf.
Qed.

Lemma models_forEach coerce ps (s : Sampled.state) d :
  models s d →
  ∃ d', forEach coerce ps d = Normal d' ∧ models (foldl Sampled.body s ps) d'.
Proof.
  revert s d. induction ps as [|p ps IH]; intros s d Hs; [by eexists|].
  cbn [forEach foldl].
  destruct (models_body coerce s d p Hs) as (d1 & -> & H1). by apply IH.
Qed.

(** X25. On files of the expected shape the two embeddings agree and no
    frame throws: when every record is [null], an object without [pos] or
    an object whose [pos] is an array of numbers, a frame on the records as
    values ends normally and leaves the meshes, the stored sequences and the
    counter that the frame on the typed records leaves. *)
Theorem typed_records_never_throw coerce (step : Qc) ps (s : Sampled.state) d :
  models s d →
  ∃ d', animate_with coerce step ps d = Normal d' ∧
        models (Sampled.animate_with step ps s) d'.
Proof.
  intros Hs. unfold animate_with, Sampled.animate_with.
  destruct (models_forEach coerce ps s d Hs) as (d1 & -> & Hm & Hp & Hf).
  eexists. split; [done|]. unfold models. cbn. by rewrite Hm, Hp, Hf.
Qed.

Lemma outcome_alike d d' p : alike d d' → outcome_of d p = outcome_of d' p.
Proof.
  intros (Hf & Hp & Hm). unfold outcome_of. rewrite Hf, Hp.
  specialize (Hm (Sampled.name p)). unfold advance.
  destruct (planetMeshes d !! Sampled.name p) as [m|],
           (planetMeshes d' !! Sampled.name p) as [m'|]; try done.
  - destruct (proj1 Hm) as [? ?]; by eauto.
  - destruct (proj2 Hm) as [? ?]; by eauto.
Qed.

Lemma alike_body_state coerce d p : alike d (state_of (body coerce d p)).
Proof. destruct (body_state coerce d p) as (Hf & Hp & _ & Hm). by split_and!. Qed.

Lemma alike_trans d1 d2 d3 : alike d1 d2 → alike d2 d3 → alike d1 d3.
Proof.
  intros (Hf & Hp & Hm) (Hf' & Hp' & Hm'). split_and!; try congruence.
  intros k. by rewrite Hm.
Qed.

Lemma alike_sym d1 d2 : alike d1 d2 → alike d2 d1.
Proof. intros (Hf & Hp & Hm). by split_and!. Qed.

Lemma body_thrown_alike coerce d d' p :
  alike d d' → thrown (body coerce d p) = thrown (body coerce d' p).
Proof.
  intros H. unfold body. rewrite (outcome_alike d d' p H).
  by destruct (outcome_of d' p).
Qed.

Lemma forEach_thrown_alike coerce ps d d' :
  alike d d' → thrown (forEach coerce ps d) = thrown (forEach coerce ps d').
Proof.
  revert d d'. induction ps as [|p ps IH]; intros d d' H; [done|].
  cbn [forEach]. pose proof (body_thrown_alike coerce d d' p H) as Hb.
  pose proof (alike_body_state coerce d p) as H1.
  pose proof (alike_body_state coerce d' p) as H2.
  destruct (body coerce d p) as [d1|d1], (body coerce d' p) as [d1'|d1']; try done.
  cbn [state_of] in *. apply IH.
  apply (alike_trans d1 d d1'); [by apply alike_sym|].
  by apply (alike_trans d d' d1').
Qed.

Lemma animate_with_thrown coerce (step : Qc) ps d :
  thrown (animate_with coerce step ps d) = thrown (forEach coerce ps d).
Proof. unfold animate_with. by destruct (forEach coerce ps d). Qed.

(** X26. An exception at line 171 freezes the playback: when a frame
    throws, every later frame throws as well, and the counter stays where
    it was, so the same record is met again on every frame. *)
Theorem thrown_frame_freezes_playback coerce (step : Qc) ps d (n : nat) :
  thrown (animate_with coerce step ps d) = true →
  thrown (animate_with coerce step ps (frames coerce n step ps d)) = true ∧
  frameIndex (frames coerce n step ps d) = frameIndex d ∧
  planetPositions (frames coerce n step ps d) = planetPositions d.
Proof.
  intros Hd.
  assert (alike d (frames coerce n step ps d) ∧
          thrown (animate_with coerce step ps (frames coerce n step ps d)) = true)
    as [(Hf & Hp & _) Ht].
  { induction n as [|n [IH Ht]]; [by split; [split_and!|]|].
    change (frames coerce (S n) step ps d)
      with (state_of (animate_with coerce step ps (frames coerce n step ps d))).
    set (dn := frames coerce n step ps d) in *.
    assert (alike dn (state_of (animate_with coerce step ps dn))) as Hn.
    { destruct (animate_with_state coerce step ps dn) as (Hm & Hp & Hf).
      destruct (forEach_state coerce ps dn) as (_ & _ & Hs).
      destruct (animate_with coerce step ps dn); [done|].
      split_and!; [done | done |]. intros k. by rewrite Hm, Hs. }
    split; [by eapply alike_trans|].
    rewrite animate_with_thrown, <- (forEach_thrown_alike coerce ps dn) by done.
    by rewrite <- (animate_with_thrown coerce step). }
  done.
Qed.

End typed_records.

(** ** The advancer and the loader of the orbit-line version *)

Section polyline_frames.
Import Polyline.
Implicit Types (s : state) (p q : planet) (ps : list planet) (k : string).


Lemma line_body s p :
  body s p = match target s p with
             | Some v => set_mesh (name p) v s
             | None => s
             end.
Proof.
  unfold body, target.
  by destruct (planetMeshes s !! name p), (orbitLines s !! name p).
Qed.

Lemma line_body_frame s p :
  orbitLines (body s p) = orbitLines s ∧
  orbitsVisible (body s p) = orbitsVisible s ∧
  speed (body s p) = speed s ∧
  t (body s p) = t s ∧
  loading (body s p) = loading s.
Proof. rewrite line_body. by destruct (target s p). Qed.

Lemma line_body_mesh_other s p k :
  name p ≠ k → planetMeshes (body s p) !! k = planetMeshes s !! k.
Proof.
  intros Hk. rewrite line_body. destruct (target s p); [|done].
  cbn. by rewrite lookup_insert_ne.
Qed.

Lemma line_body_mesh_same s p :
  planetMeshes (body s p) !! name p =
  match target s p with
  | Some v => Some v
  | None => planetMeshes s !! name p
  end.
Proof.
  rewrite line_body. destruct (target s p); [|done].
  cbn. by rewrite lookup_insert_eq.
Qed.

Lemma target_body s q p :
  name q ≠ name p → target (body s q) p = target s p.
Proof.
  intros Hne. unfold target.
  destruct (line_body_frame s q) as (-> & _ & _ & -> & _).
  by rewrite line_body_mesh_other.
Qed.

Lemma line_foldl_frame ps s :
  orbitLines (foldl body s ps) = orbitLines s ∧
  orbitsVisible (foldl body s ps) = orbitsVisible s ∧
  speed (foldl body s ps) = speed s ∧
  t (foldl body s ps) = t s ∧
  loading (foldl body s ps) = loading s.
Proof.
  revert s. induction ps as [|q ps IH]; intros s; [done|].
  cbn [foldl]. destruct (IH (body s q)) as (-> & -> & -> & -> & ->).
  apply line_body_frame.
Qed.

Lemma line_foldl_mesh_other ps s k :
  k ∉ name <$> ps → planetMeshes (foldl body s ps) !! k = planetMeshes s !! k.
Proof.
  revert s. induction ps as [|q ps IH]; intros s Hk; [done|].
  rewrite fmap_cons, not_elem_of_cons in Hk. destruct Hk as [Hq Hk].
  cbn [foldl]. rewrite IH by done. by apply line_body_mesh_other.
Qed.

Lemma line_foldl_mesh ps s p :
  NoDup (name <$> ps) → p ∈ ps →
  planetMeshes (foldl body s ps) !! name p =
  match target s p with
  | Some v => Some v
  | None => planetMeshes s !! name p
  end.
Proof.
  revert s. induction ps as [|q ps IH]; intros s Hnd Hp.
  { by apply elem_of_nil in Hp. }
  rewrite fmap_cons in Hnd. apply list.NoDup_cons in Hnd as [Hq Hnd].
  cbn [foldl]. apply elem_of_cons in Hp as [->|Hp].
  - rewrite line_foldl_mesh_other by done. apply line_body_mesh_same.
  - assert (name q ≠ name p) as Hne.
    { intros Heq. apply Hq. rewrite Heq. by apply list_elem_of_fmap_2. }
    rewrite IH by done. rewrite target_body by done.
    by rewrite line_body_mesh_other.
Qed.

(** Without an orbit line the mesh is not touched. *)
Lemma line_foldl_mesh_still ps s k :
  orbitLines s !! k = None →
  planetMeshes (foldl body s ps) !! k = planetMeshes s !! k.
Proof.
  revert s. induction ps as [|q ps IH]; intros s Hk; [done|].
  cbn [foldl]. rewrite IH.
  - destruct (decide (name q = k)) as [<-|Hne].
    + rewrite line_body_mesh_same. unfold target. rewrite Hk.
      by destruct (planetMeshes s !! name q).
    + by apply line_body_mesh_other.
  - by destruct (line_body_frame s q) as (-> & _).
Qed.

Lemma animate_on_frame ps s :
  planetMeshes (animate_on ps s) =
    planetMeshes (foldl body (set_t (t s + speed s) s) ps) ∧
  orbitLines (animate_on ps s) = orbitLines s ∧
  orbitsVisible (animate_on ps s) = orbitsVisible s ∧
  speed (animate_on ps s) = speed s ∧
  t (animate_on ps s) = t s + speed s ∧
  loading (animate_on ps s) = loading s.
Proof.
  unfold animate_on.
  destruct (line_foldl_frame ps (set_t (t s + speed s) s))
    as (-> & -> & -> & -> & ->). done.
Qed.

(** Each control and each frame, on the speed. *)
Lemma step_speed ps s e :
  speed (step ps s e) =
  match e with
  | SpeedUp => speed s * Q2Qc (15 # 10)
  | SpeedDown => speed s * Q2Qc (7 # 10)
  | _ => speed s
  end.
Proof.
  destruct e as [|r| | |]; cbn; try done.
  - by destruct (animate_on_frame ps s) as (_ & _ & _ & -> & _).
  - unfold resume. destruct (loading s) as [p rest| |]; [|done..].
    destruct r as [err|data]; [done|].
    destruct (map_points _ _); [|done]. by destruct rest.
Qed.

Lemma run_speed_pos ps es s : 0 < speed s → 0 < speed (run ps es s).
Proof.
  revert s. induction es as [|e es IH]; intros s Hs; [done|].
  cbn. apply IH. rewrite step_speed.
  destruct e; try done; by apply Qcmult_pos_pos.
Qed.
End polyline_frames.

(** ** The frame counter *)

(** C7 fails as stated on the orbit-line version: the increment of [t] is
    the current [speed], and the speed-up button between two frames makes
    the second increment 3/2 where the first was 1. *)
Lemma C7_increment_follows_speed :
  Polyline.t Scenario.first_frame - Polyline.t (Polyline.startup Polyline.planets)
    = Q2Qc 1 ∧
  Polyline.t Scenario.faster_frame - Polyline.t (Polyline.speedUp Scenario.first_frame)
    = Q2Qc (3 # 2) ∧
  Polyline.t Scenario.first_frame - Polyline.t (Polyline.startup Polyline.planets)
    ≠ Polyline.t Scenario.faster_frame - Polyline.t (Polyline.speedUp Scenario.first_frame).
Proof. split_and!; evaluate. Qed.

Lemma step_t ps s e :
  Polyline.t (Polyline.step ps s e) =
  match e with
  | Polyline.Frame => Polyline.t s + Polyline.speed s
  | _ => Polyline.t s
  end.
Proof.
  destruct e as [|r| | |]; cbn; try done.
  - by destruct (animate_on_frame ps s) as (_ & _ & _ & _ & -> & _).
  - unfold Polyline.resume. destruct (Polyline.loading s) as [p rest| |]; [|done..].
    destruct r as [err|data]; [done|].
    destruct (Polyline.map_points _ _); [|done]. by destruct rest.
Qed.

Lemma Qcle_plus_nonneg (x y : Qc) : 0 ≤ y → x ≤ x + y.
Proof.
  intros Hy. rewrite <- (Qcplus_0_r x) at 1. by apply Qcplus_le_mono_l.
Qed.

Section doubles.
Import Doubles.

Lemma prec64 : (1 <= Ieee.prec Ieee.binary64)%Z.
Proof. done. Qed.

Lemma double_held (x : Qc) : 0 ≤ x → held (double x).
Proof.
  intros Hx. unfold held. destruct (double x) as [a|] eqn:Ha; [|done]. split.
  - by apply (rounded_nonneg Ieee.binary64 x a).
  - by apply (rounded_idem Ieee.binary64 prec64 x a).
Qed.

Lemma plus_held (a b : jsnum) : held a → held b → held (plus a b).
Proof.
  destruct a as [x|], b as [y|]; try done. intros [Hx _] [Hy _].
  apply double_held. by apply Qcplus_nonneg_nonneg.
Qed.

Lemma times_held (a b : jsnum) : held a → held b → held (times a b).
Proof.
  destruct a as [x|], b as [y|]; try done. intros [Hx _] [Hy _].
  apply double_held. by apply Qcmult_nonneg_nonneg.
Qed.

(** Adding a number that is not negative never gives less. *)
Lemma plus_le (a b : jsnum) : held a → held b → le a (plus a b).
Proof.
  destruct a as [x|], b as [y|]; try done. intros [Hx Hdx] [Hy _].
  unfold plus, le. destruct (double (x + y)) as [r|] eqn:Hr; [|done].
  destruct (rounded_mono_nonneg Ieee.binary64 prec64 x (x + y) r) as (a & Ha & Hle);
    [done | by apply Qcle_plus_nonneg | done |].
  unfold double in Hdx. congruence.
Qed.

Lemma step_held (c : clock) (e : event) :
  held (t c) → held (speed c) → held (t (step c e)) ∧ held (speed (step c e)).
Proof.
  intros Ht Hs. destruct e; cbn; (split; [|try done]); try done.
  - by apply plus_held.
  - apply times_held; [done|]. by apply double_held.
  - apply times_held; [done|]. by apply double_held.
Qed.

Lemma clock_run_snoc (es : list event) (e : event) (c : clock) :
  run (es ++ [e]) c = step (run es c) e.
Proof. unfold run. by rewrite foldl_app. Qed.

Lemma run_held (es : list event) :
  held (t (run es startup)) ∧ held (speed (run es startup)).
Proof.
  induction es as [|e es [IHt IHs]] using rev_ind.
  - split; split; try done; evaluate.
  - rewrite clock_run_snoc. by apply step_held.
Qed.

(** In double arithmetic the counter of the orbit-line version never runs
    backwards, and the speed is never negative. *)
Lemma clock_le_step (es : list event) (e : event) :
  le (t (run es startup)) (t (step (run es startup) e)) ∧
  le (Some 0) (speed (run es startup)).
Proof.
  destruct (run_held es) as [Ht Hs]. split.
  - destruct e; cbn.
    + by apply plus_le.
    + destruct (t (run es startup)); [apply Qcle_refl | done].
    + destruct (t (run es startup)); [apply Qcle_refl | done].
  - destruct (speed (run es startup)) as [s|]; [|done]. by destruct Hs.
Qed.

(** X27.  When the counter stalls: for a counter at a positive double, a
    speed below half a unit in the last place of the counter is absorbed by
    the addition of line 368 and the frame leaves [t] where it was; a speed
    above half a unit moves it on. *)
Theorem clock_stalls_below_half_ulp (c : clock) (x s : Qc) :
  t c = Some x → speed c = Some s →
  0 < x → double x = Some x → 0 ≤ s →
  (s + s < ulp x → t (animate c) = Some x) ∧
  (ulp x < s + s → lt (Some x) (t (animate c))).
Proof.
  intros Ht Hs Hx Hd Hs0. cbn. rewrite Ht, Hs. cbn. split.
  - intros Hsmall. by apply (rounded_absorbs Ieee.binary64 prec64).
  - intros Hbig. destruct (double (x + s)) as [a|] eqn:Ha; [|done].
    by apply (rounded_moves Ieee.binary64 prec64 x s a).
Qed.

Lemma next_frameIndex_le (f : jsnum) : held f → le f (next_frameIndex f).
Proof. intros Hf. apply plus_le; [done|]. apply double_held. by vm_compute. Qed.

Lemma FRAME_SPEED_value :
  FRAME_SPEED = Some (Q2Qc (3602879701896397 # 36028797018963968)).
Proof. evaluate. Qed.

(** X28.  In double arithmetic the counter of the raw-sample version
    advances exactly as long as it is below 2^50: from a double below 2^50
    line 186 gives a greater number, and from 2^50 on the addend 0.1 is
    less than half a unit in the last place and the counter stays. *)
Theorem frameIndex_advances_below_2_50 (f : Qc) :
  0 ≤ f → double f = Some f →
  (f < Qc_of_Z (2 ^ 50) → lt (Some f) (next_frameIndex (Some f))) ∧
  (Qc_of_Z (2 ^ 50) ≤ f → next_frameIndex (Some f) = Some f).
Proof.
  intros Hf Hd. unfold next_frameIndex. rewrite FRAME_SPEED_value.
  set (c := Q2Qc (3602879701896397 # 36028797018963968)). cbn. split.
  - intros Hlt. destruct (Qc_eq_dec f 0) as [->|Hne].
    { rewrite Qcplus_0_l. replace (double c) with (Some c) by (symmetry; evaluate).
      evaluate. }
    assert (0 < f) as Hpos by (by apply Qcle_lt_or_eq in Hf as [|]).
    destruct (double (f + c)) as [a|] eqn:Ha; [|done].
    apply (rounded_moves Ieee.binary64 prec64 f c a); [done | done | | done].
    unfold ulp_of, Qclt. rewrite this_Q2Qc.
    eapply Qle_lt_trans; [apply (ulp_of_below Ieee.binary64 f 49); [done | | done]|].
    + rewrite pow2_Z by done. exact Hlt.
    + by vm_compute.
  - intros Hge.
    assert (0 < f) as Hpos.
    { eapply Qclt_le_trans; [|exact Hge]. by vm_compute. }
    apply (rounded_absorbs Ieee.binary64 prec64 f c); [done | done | by vm_compute |].
    unfold ulp_of, Qclt. rewrite this_Q2Qc.
    eapply Qlt_le_trans; [|apply (ulp_of_above Ieee.binary64 f 50)].
    + by vm_compute.
    + rewrite pow2_Z by done. exact Hge.
Qed.

End doubles.

(** C7, amended.  The frame counter never decreases and its step is never
    derived from measured time.  In the raw-sample version every frame
    that runs to its end adds the constant FRAME_SPEED = 1/10; a frame in
    which line 171 throws ends before line 186 and leaves the counter as
    it was.  In the orbit-line version every frame adds the current
    [speed] and leaves [speed] as it is; only the two speed buttons change
    it (times 3/2, times 7/10), and after any sequence of frames, loads and
    clicks it is not negative, so no event makes the counter smaller.  The
    last two parts say the same of the sums and products of doubles, where
    the result is rounded and can be an infinity: line 186 and every event
    of the orbit-line version leave the counter at least where it was. *)
Theorem C7_counter_never_decreases :
  Sampled.FRAME_SPEED = Q2Qc (1 # 10) ∧
  (∀ ps s,
     Sampled.frameIndex (Sampled.animate_with Sampled.FRAME_SPEED ps s)
       = Sampled.frameIndex s + Sampled.FRAME_SPEED ∧
     Sampled.frameIndex s
       ≤ Sampled.frameIndex (Sampled.animate_with Sampled.FRAME_SPEED ps s)) ∧
  (∀ coerce ps s,
     match Dynamic.animate_with coerce Sampled.FRAME_SPEED ps s with
     | Dynamic.Normal s' =>
         Dynamic.frameIndex s' = Dynamic.frameIndex s + Sampled.FRAME_SPEED
     | Dynamic.Abrupt s' => Dynamic.frameIndex s' = Dynamic.frameIndex s
     end) ∧
  (∀ ps s e,
     Polyline.speed (Polyline.step ps s e) =
     match e with
     | Polyline.SpeedUp => Polyline.speed s * Q2Qc (15 # 10)
     | Polyline.SpeedDown => Polyline.speed s * Q2Qc (7 # 10)
     | _ => Polyline.speed s
     end) ∧
  (∀ ps s e,
     Polyline.t (Polyline.step ps s e) =
     match e with
     | Polyline.Frame => Polyline.t s + Polyline.speed s
     | _ => Polyline.t s
     end) ∧
  (∀ ps es,
     0 ≤ Polyline.speed (Polyline.run ps es (Polyline.startup ps)) ∧
     ∀ e, Polyline.t (Polyline.run ps es (Polyline.startup ps))
          ≤ Polyline.t (Polyline.step ps (Polyline.run ps es (Polyline.startup ps)) e)) ∧
  (∀ f, Doubles.held f → Doubles.le f (Doubles.next_frameIndex f)) ∧
  (∀ es e,
     Doubles.le (Doubles.t (Doubles.run es Doubles.startup))
                (Doubles.t (Doubles.step (Doubles.run es Doubles.startup) e)) ∧
     Doubles.le (Some 0) (Doubles.speed (Doubles.run es Doubles.startup))).
Proof.
  split; [done|]. split_and!; [| | | | | apply next_frameIndex_le | apply clock_le_step].
  - intros ps s.
    destruct (animate_with_frame Sampled.FRAME_SPEED ps s)
      as (_ & _ & _ & -> & _).
    split; [done|]. by apply Qcle_plus_nonneg.
  - intros coerce ps s.
    destruct (animate_with_state coerce Sampled.FRAME_SPEED ps s) as (_ & _ & H).
    by destruct (Dynamic.animate_with coerce Sampled.FRAME_SPEED ps s).
  - apply step_speed.
  - apply step_t.
  - intros ps es. set (s := Polyline.run ps es (Polyline.startup ps)).
    assert (0 < Polyline.speed s) as Hs.
    { apply run_speed_pos. by destruct ps. }
    split; [by apply Qclt_le_weak|].
    intros e. rewrite step_t. destruct e; try apply Qcle_refl.
    by apply Qcle_plus_nonneg, Qclt_le_weak.
Qed.

(** ** The toggle of the orbit lines *)

Section toggle.
Import Polyline.
Implicit Types (s : state).

(** C10 fails as stated: hide the orbits while the first file is still
    loading; the line then arrives visible, and two more clicks leave it
    hidden. *)
Lemma C10_line_loaded_while_hidden :
  orbitsVisible Scenario.hidden_then_loaded = false ∧
  visible <$> orbitLines Scenario.hidden_then_loaded !! "mercury" = Some true ∧
  visible <$> orbitLines (toggleOrbits (toggleOrbits Scenario.hidden_then_loaded))
                !! "mercury" = Some false.
Proof. split_and!; evaluate. Qed.

(** C10, amended. Two clicks in a row restore [orbitsVisible] and leave
    every orbit line with its points and with its flag equal to that
    restored value; they restore the whole state whenever every line's
    flag agreed with [orbitsVisible] before the first click.  No click
    changes a planet's position, the frame counter or the speed. *)
Theorem C10_toggle_twice s :
  orbitsVisible (toggleOrbits (toggleOrbits s)) = orbitsVisible s ∧
  (∀ k, orbitLines (toggleOrbits (toggleOrbits s)) !! k =
        (λ l, mkLine (points l) (orbitsVisible s)) <$> orbitLines s !! k) ∧
  (map_Forall (λ _ l, visible l = orbitsVisible s) (orbitLines s) →
   toggleOrbits (toggleOrbits s) = s) ∧
  planetMeshes (toggleOrbits s) = planetMeshes s ∧
  t (toggleOrbits s) = t s ∧
  speed (toggleOrbits s) = speed s.
Proof.
  assert (∀ k, orbitLines (toggleOrbits (toggleOrbits s)) !! k =
               (λ l, mkLine (points l) (orbitsVisible s)) <$> orbitLines s !! k) as Hl.
  { intros k. cbn. rewrite !lookup_fmap, negb_involutive.
    by destruct (orbitLines s !! k). }
  split; [apply negb_involutive|]. split; [done|]. split; [|done].
  intros Hsync. destruct s as [meshes lines v sp tt ld].
  unfold toggleOrbits at 1. cbn [planetMeshes orbitLines orbitsVisible speed t loading].
  f_equal.
  - apply map_eq. intros k. rewrite lookup_fmap.
    cbn. rewrite lookup_fmap, negb_involutive.
    destruct (lines !! k) as [[pts b]|] eqn:Hk; [|done].
    cbn. f_equal. f_equal. symmetry. exact (Hsync k _ Hk).
  - apply negb_involutive.
Qed.

Lemma C10_witness :
  map_Forall (λ _ l, visible l = orbitsVisible (Scenario.traced 1))
             (orbitLines (Scenario.traced 1)) ∧
  toggleOrbits (toggleOrbits (Scenario.traced 1)) = Scenario.traced 1.
Proof.
  split; [evaluate|].
  apply (proj1 (proj2 (proj2 (C10_toggle_twice (Scenario.traced 1))))).
  evaluate.
Defined.
End toggle.

(** ** Bodies without data *)

Lemma sampled_frames_frame (n : nat) (step : Qc) ps s :
  Sampled.planetPositions (Sampled.frames n step ps s) = Sampled.planetPositions s.
Proof.
  induction n as [|n IH]; [done|].
  change (Sampled.frames (S n) step ps s)
    with (Sampled.animate_with step ps (Sampled.frames n step ps s)).
  destruct (animate_with_frame step ps (Sampled.frames n step ps s))
    as (_ & _ & -> & _). exact IH.
Qed.

Lemma polyline_frames_frame (n : nat) ps s :
  Polyline.orbitLines (Polyline.frames n ps s) = Polyline.orbitLines s.
Proof.
  induction n as [|n IH]; [done|].
  change (Polyline.frames (S n) ps s)
    with (Polyline.animate_on ps (Polyline.frames n ps s)).
  destruct (animate_on_frame ps (Polyline.frames n ps s)) as (_ & -> & _).
  exact IH.
Qed.

(** Whenever the raw-sample advancer computes an index, the divisor of the
    remainder is positive and the index is a number. *)
Lemma advance_index_is_number f c positions mesh idx :
  Sampled.advance f c positions mesh = Sampled.Kept idx ∨
  (∃ pos v, Sampled.advance f c positions mesh = Sampled.Moved idx pos v) →
  is_Some idx.
Proof.
  unfold Sampled.advance.
  destruct positions as [l|], mesh as [m|];
    try (intros [H|(pos & v & H)]; discriminate).
  case_bool_decide as Hlen; [|intros [H|(pos & v & H)]; discriminate].
  assert (is_Some (Sampled.sampleIndex f (length l))) as Hidx.
  { unfold Sampled.sampleIndex, rem_int. rewrite decide_False by lia. eauto. }
  intros H.
  destruct (at_index l _) as [[|[pos'|]]|]; try case_bool_decide;
    destruct H as [H|(pos & v & H)]; by simplify_eq.
Qed.

(** C3, amended.  In the raw-sample version a body whose stored sequence
    is absent or empty is skipped by every frame, for any number of frames:
    its mesh stays where it is and the pass ends before any index is
    computed, so no remainder by zero is taken (and wherever the raw-sample
    advancer does compute an index, it is a number).  In the orbit-line
    version the same holds of a body without an orbit line, which is the
    body whose load has not completed or has failed. *)
Theorem C3_body_without_data_is_skipped :
  (∀ (step : Qc) ps s k (n : nat),
     Sampled.planetPositions s !! k = None ∨ Sampled.planetPositions s !! k = Some [] →
     Sampled.planetMeshes (Sampled.frames n step ps s) !! k = Sampled.planetMeshes s !! k ∧
     ∀ p, Sampled.name p = k →
          Sampled.outcome_of (Sampled.frames n step ps s) p = Sampled.Skipped) ∧
  (∀ f c positions mesh idx,
     Sampled.advance f c positions mesh = Sampled.Kept idx ∨
     (∃ pos v, Sampled.advance f c positions mesh = Sampled.Moved idx pos v) →
     is_Some idx) ∧
  (∀ ps s k (n : nat),
     Polyline.orbitLines s !! k = None →
     Polyline.planetMeshes (Polyline.frames n ps s) !! k = Polyline.planetMeshes s !! k ∧
     ∀ p, Polyline.name p = k →
          Polyline.body (Polyline.frames n ps s) p = Polyline.frames n ps s).
Proof.
  split; [|split; [apply advance_index_is_number|]].
  - intros step ps s k n Hk.
    assert (∀ m p, Sampled.name p = k →
              Sampled.outcome_of (Sampled.frames m step ps s) p = Sampled.Skipped) as Hskip.
    { intros m p <-. unfold Sampled.outcome_of. rewrite sampled_frames_frame.
      apply advance_skipped. tauto. }
    split; [|by apply Hskip].
    induction n as [|n IH]; [done|].
    change (Sampled.frames (S n) step ps s)
      with (Sampled.animate_with step ps (Sampled.frames n step ps s)).
    destruct (animate_with_frame step ps (Sampled.frames n step ps s)) as (-> & _).
    rewrite foldl_body_mesh_still; [exact IH|].
    intros p _ Hp. by rewrite (Hskip n p Hp).
  - intros ps s k n Hk. split.
    + induction n as [|n IH]; [done|].
      change (Polyline.frames (S n) ps s)
        with (Polyline.animate_on ps (Polyline.frames n ps s)).
      destruct (animate_on_frame ps (Polyline.frames n ps s)) as (-> & _).
      rewrite line_foldl_mesh_still; [exact IH|].
      cbn. by rewrite polyline_frames_frame.
    + intros p <-. rewrite line_body. unfold Polyline.target.
      rewrite polyline_frames_frame, Hk.
      by destruct (Polyline.planetMeshes _ !! _).
Qed.

Lemma C3_witness :
  ((Sampled.planetPositions (Sampled.startup [Scenario.probe 1]) !! "Probe" = None ∨
    Sampled.planetPositions (Sampled.startup [Scenario.probe 1]) !! "Probe" = Some []) ∧
   Sampled.planetMeshes
     (Sampled.frames 7 Sampled.FRAME_SPEED [Scenario.probe 1]
        (Sampled.startup [Scenario.probe 1])) !! "Probe"
   = Sampled.planetMeshes (Sampled.startup [Scenario.probe 1]) !! "Probe") ∧
  is_Some (Sampled.sampleIndex 0 (length Scenario.track)) ∧
  (Polyline.orbitLines (Polyline.startup [Scenario.tracer 1]) !! "Probe" = None ∧
   Polyline.planetMeshes
     (Polyline.frames 7 [Scenario.tracer 1] (Polyline.startup [Scenario.tracer 1])) !! "Probe"
   = Polyline.planetMeshes (Polyline.startup [Scenario.tracer 1]) !! "Probe").
Proof.
  split; [|split].
  - split; [left; reflexivity|].
    apply (proj1 C3_body_without_data_is_skipped Sampled.FRAME_SPEED
             [Scenario.probe 1] (Sampled.startup [Scenario.probe 1]) "Probe" 7%nat).
    left. reflexivity.
  - apply (proj1 (proj2 C3_body_without_data_is_skipped) 0 1 (Some Scenario.track)
             (Some origin) (Sampled.sampleIndex 0 (length Scenario.track))).
    right. eexists _, _. reflexivity.
  - split; [reflexivity|].
    apply (proj2 (proj2 C3_body_without_data_is_skipped)
             [Scenario.tracer 1] (Polyline.startup [Scenario.tracer 1]) "Probe" 7%nat).
    reflexivity.
Defined.

(** C3 fails as stated on the orbit-line version: line 373 asks for the
    line only.  A file without records gives a line without points; the
    body has its mesh at the origin, the frame takes the remainder by zero,
    and the mesh is left with undefined components. *)
Lemma C3_empty_line_is_not_skipped :
  Polyline.points <$> Polyline.orbitLines Scenario.traced_empty !! "Probe" = Some [] ∧
  Polyline.planetMeshes Scenario.traced_empty !! "Probe" = Some origin ∧
  Polyline.pointIndex
    (Polyline.t Scenario.traced_empty + Polyline.speed Scenario.traced_empty) 0 = None ∧
  Polyline.planetMeshes (Polyline.animate_on [Scenario.tracer 1] Scenario.traced_empty)
    !! "Probe" = Some undefined3 ∧
  origin ≠ undefined3.
Proof. split_and!; evaluate. Qed.

(** ** What a frame does to a body with data *)




(** ** Loading failures *)

Section sampled_loading.
Import Sampled.
Implicit Types (s : state) (p q : planet) (ps : list planet) (k : string).

Lemma step_spares inc ps s e k :
  spares k e →
  planetPositions (step inc ps s e) !! k = planetPositions s !! k.
Proof.
  destruct e as [q [err|data]| |]; cbn; intros Hk.
  - done.
  - by rewrite lookup_insert_ne.
  - destruct (_ && _); [|done].
    by destruct (animate_with_frame inc ps (set_started (console_log LogAllLoaded s)))
      as (_ & _ & -> & _).
  - destruct (started s); [|done].
    by destruct (animate_with_frame inc ps s) as (_ & _ & -> & _).
Qed.

Lemma run_spares inc ps es s k :
  Forall (spares k) es →
  planetPositions (run inc ps es s) !! k = planetPositions s !! k.
Proof.
  intros Hes. revert s. induction Hes as [|e es He _ IH]; intros s; [done|].
  change (run inc ps (e :: es) s) with (run inc ps es (step inc ps s e)).
  rewrite IH. by apply step_spares.
Qed.

Lemma step_settled inc ps s e k :
  k ∈ settled s → k ∈ settled (step inc ps s e).
Proof.
  destruct e as [q r| |]; cbn; intros Hk.
  - destruct r; cbn; set_solver.
  - destruct (_ && _); [|done].
    by destruct (animate_with_frame inc ps (set_started (console_log LogAllLoaded s)))
      as (_ & _ & _ & _ & -> & _).
  - destruct (started s); [|done].
    by destruct (animate_with_frame inc ps s) as (_ & _ & _ & _ & -> & _).
Qed.

Lemma run_settled inc ps es s k :
  k ∈ settled s → k ∈ settled (run inc ps es s).
Proof.
  revert s. induction es as [|e es IH]; intros s Hk; [done|].
  cbn. by apply IH, step_settled.
Qed.

Lemma run_settles inc ps es s p r :
  Settle p r ∈ es → name p ∈ settled (run inc ps es s).
Proof.
  revert s. induction es as [|e es IH]; intros s He.
  { by apply elem_of_nil in He. }
  apply elem_of_cons in He as [<-|He]; [|by apply IH].
  cbn [run foldl]. apply run_settled. destruct r; cbn; set_solver.
Qed.
End sampled_loading.

Section polyline_loading.
Import Polyline.
Implicit Types (s : state) (p q : planet) (ps : list planet) (k : string).

Lemma step_aborted ps s e k :
  loading s = Aborted → orbitLines s !! k = None →
  loading (step ps s e) = Aborted ∧ orbitLines (step ps s e) !! k = None.
Proof.
  intros Hl Hk. destruct e as [|r| | |]; cbn.
  - by destruct (animate_on_frame ps s) as (_ & -> & _ & _ & _ & ->).
  - unfold resume. by rewrite Hl.
  - by rewrite lookup_fmap, Hk.
  - done.
  - done.
Qed.

Lemma run_aborted ps es s k :
  loading s = Aborted → orbitLines s !! k = None →
  loading (run ps es s) = Aborted ∧ orbitLines (run ps es s) !! k = None.
Proof.
  revert s. induction es as [|e es IH]; intros s Hl Hk; [done|].
  cbn. destruct (step_aborted ps s e k Hl Hk). by apply IH.
Qed.
End polyline_loading.

(** C5 fails as stated on the orbit-line version: when the first fetch of
    [loadPlanets] is rejected, the second planet gets neither a mesh nor an
    orbit line although its file is there; with the first fetch answered it
    gets both. *)
Lemma C5_sequential_loader_stops :
  Polyline.loading Scenario.mercury_fails = Polyline.Aborted ∧
  Polyline.orbitLines Scenario.mercury_fails !! "venus" = None ∧
  Polyline.planetMeshes Scenario.mercury_fails !! "venus" = None ∧
  is_Some (Polyline.orbitLines Scenario.mercury_loads !! "venus") ∧
  is_Some (Polyline.planetMeshes Scenario.mercury_loads !! "venus").
Proof. split_and!; evaluate. Qed.

(** C5, amended.  In the raw-sample version a fetch or parse failure for one
    body is isolated.  It is reported on the console and changes nothing
    else but the set of settled promises; so every other body loads to the
    same state whether the failure is handled before it, after it or not at
    all; the failed body's sequence stays as it was (absent) through every
    later event that is not a successful load of that body; and once each
    planet's promise has settled, in success or in failure, the animation
    may start.  In the orbit-line version nothing handles the failure:
    [loadPlanets] stops at the failed body, the lines and meshes made so far
    stay, and no body without a line gets one afterwards. *)
Theorem C5_load_failure :
  (∀ p err s,
     Sampled.planetPositions (Sampled.load p (Rejected err) s) = Sampled.planetPositions s ∧
     Sampled.orbitPath (Sampled.load p (Rejected err) s) = Sampled.orbitPath s ∧
     Sampled.planetMeshes (Sampled.load p (Rejected err) s) = Sampled.planetMeshes s ∧
     Sampled.frameIndex (Sampled.load p (Rejected err) s) = Sampled.frameIndex s ∧
     Sampled.console (Sampled.load p (Rejected err) s)
       = Sampled.console s ++ [Sampled.LogError (Sampled.name p) err] ∧
     Sampled.name p ∈ Sampled.settled (Sampled.load p (Rejected err) s)) ∧
  (∀ p err q r s,
     Sampled.planetPositions (Sampled.load q r (Sampled.load p (Rejected err) s))
       = Sampled.planetPositions (Sampled.load q r s) ∧
     Sampled.orbitPath (Sampled.load q r (Sampled.load p (Rejected err) s))
       = Sampled.orbitPath (Sampled.load q r s) ∧
     Sampled.planetPositions (Sampled.load p (Rejected err) (Sampled.load q r s))
       = Sampled.planetPositions (Sampled.load q r s) ∧
     Sampled.orbitPath (Sampled.load p (Rejected err) (Sampled.load q r s))
       = Sampled.orbitPath (Sampled.load q r s)) ∧
  (∀ inc ps es s k,
     Forall (Sampled.spares k) es →
     Sampled.planetPositions (Sampled.run inc ps es s) !! k
       = Sampled.planetPositions s !! k) ∧
  (∀ inc ps es s,
     (∀ p, p ∈ ps → ∃ r, Sampled.Settle p r ∈ es) →
     Sampled.all_settled ps (Sampled.run inc ps es s) = true) ∧
  (∀ inc ps s,
     Sampled.all_settled ps s = true → Sampled.started s = false →
     Sampled.started (Sampled.step inc ps s Sampled.Start) = true ∧
     Sampled.frameIndex (Sampled.step inc ps s Sampled.Start)
       = Sampled.frameIndex s + inc) ∧
  (∀ s p rest err,
     Polyline.loading s = Polyline.Awaiting p rest →
     Polyline.loading (Polyline.resume (Rejected err) s) = Polyline.Aborted ∧
     Polyline.orbitLines (Polyline.resume (Rejected err) s) = Polyline.orbitLines s ∧
     Polyline.planetMeshes (Polyline.resume (Rejected err) s) = Polyline.planetMeshes s) ∧
  (∀ ps es s k,
     Polyline.loading s = Polyline.Aborted → Polyline.orbitLines s !! k = None →
     Polyline.loading (Polyline.run ps es s) = Polyline.Aborted ∧
     Polyline.orbitLines (Polyline.run ps es s) !! k = None).
Proof.
  split_and!.
  - intros p err s. cbn. split_and!; try done. set_solver.
  - intros p err q r s. by destruct r.
  - intros inc ps es s k. apply run_spares.
  - intros inc ps es s Hall. unfold Sampled.all_settled.
    apply forallb_forall. intros p Hp. apply bool_decide_eq_true.
    destruct (Hall p) as [r Hr]; [by apply list_elem_of_In|].
    by eapply run_settles.
  - intros inc ps s Hall Hst. unfold Sampled.step. rewrite Hall, Hst.
    cbn [andb negb].
    by destruct (animate_with_frame inc ps
                   (Sampled.set_started (Sampled.console_log Sampled.LogAllLoaded s)))
      as (_ & _ & _ & -> & _ & ->).
  - intros s p rest err Hl. unfold Polyline.resume. by rewrite Hl.
  - intros ps es s k. apply run_aborted.
Qed.

Lemma C5_witness :
  Sampled.planetPositions
    (Sampled.run Sampled.FRAME_SPEED Sampled.planets Scenario.mercury_missing
       (Sampled.startup Sampled.planets)) !! "Mercury"
  = Sampled.planetPositions (Sampled.startup Sampled.planets) !! "Mercury" ∧
  Sampled.all_settled Sampled.planets
    (Sampled.run Sampled.FRAME_SPEED Sampled.planets Scenario.all_missing
       (Sampled.startup Sampled.planets)) = true ∧
  Sampled.started
    (Sampled.step Sampled.FRAME_SPEED Sampled.planets
       (Sampled.run Sampled.FRAME_SPEED Sampled.planets Scenario.all_missing
          (Sampled.startup Sampled.planets)) Sampled.Start) = true ∧
  Polyline.loading (Polyline.resume (Rejected "404") (Polyline.startup Polyline.planets))
  = Polyline.Aborted ∧
  Polyline.orbitLines
    (Polyline.run Polyline.planets Scenario.afterwards
       (Polyline.resume (Rejected "404") (Polyline.startup Polyline.planets))) !! "venus"
  = None.
Proof.
  split_and!.
  - apply (proj1 (proj2 (proj2 C5_load_failure)) Sampled.FRAME_SPEED Sampled.planets
             Scenario.mercury_missing (Sampled.startup Sampled.planets) "Mercury").
    repeat constructor. discriminate.
  - apply (proj1 (proj2 (proj2 (proj2 C5_load_failure))) Sampled.FRAME_SPEED
             Sampled.planets Scenario.all_missing (Sampled.startup Sampled.planets)).
    intros p Hp. exists (Rejected "404").
    apply (list_elem_of_fmap_2 (λ p, Sampled.Settle p (Rejected "404"))). exact Hp.
  - refine (proj1 (proj1 (proj2 (proj2 (proj2 (proj2 C5_load_failure))))
                      Sampled.FRAME_SPEED Sampled.planets
                      (Sampled.run Sampled.FRAME_SPEED Sampled.planets
                         Scenario.all_missing (Sampled.startup Sampled.planets)) _ _)).
    + by vm_compute.
    + by vm_compute.
  - refine (proj1 (proj1 (proj2 (proj2 (proj2 (proj2 (proj2 C5_load_failure)))))
                      (Polyline.startup Polyline.planets) _ _ "404" _)).
    reflexivity.
  - refine (proj2 (proj2 (proj2 (proj2 (proj2 (proj2 (proj2 C5_load_failure)))))
                      Polyline.planets Scenario.afterwards
                      (Polyline.resume (Rejected "404")
                         (Polyline.startup Polyline.planets))
                      "venus" _ _)).
    + reflexivity.
    + reflexivity.
Defined.

(** * Further properties of the code *)

(** ** The raw-sample version from its start *)

Section sampled_runs.
Import Sampled.
Implicit Types (s : state) (p q : planet) (ps : list planet) (k : string).

Lemma startup_snoc ps p : startup (ps ++ [p]) = create (startup ps) p.
Proof. unfold startup. by rewrite foldl_app. Qed.

Lemma startup_data ps :
  planetPositions (startup ps) = ∅ ∧ frameIndex (startup ps) = 0 ∧
  console (startup ps) = [] ∧ settled (startup ps) = ∅ ∧ started (startup ps) = false.
Proof.
  induction ps as [|p ps IH] using rev_ind; [done|].
  by rewrite startup_snoc.
Qed.

Lemma startup_mesh ps k :
  planetMeshes (startup ps) !! k = (if decide (k ∈ name <$> ps) then Some origin else None) ∧
  orbitPath (startup ps) !! k = (if decide (k ∈ name <$> ps) then Some [] else None).
Proof.
  induction ps as [|p ps [IHm IHp]] using rev_ind.
  { rewrite !decide_False by (cbn; apply not_elem_of_nil). split; apply lookup_empty. }
  rewrite startup_snoc, fmap_app. cbn.
  destruct (decide (name p = k)) as [<-|Hne].
  - rewrite !lookup_insert_eq.
    rewrite !decide_True; [done|..]; apply elem_of_app; right;
      by apply list_elem_of_singleton.
  - rewrite !lookup_insert_ne by done. rewrite IHm, IHp.
    destruct (decide (k ∈ name <$> ps)) as [Hin|Hnin].
    + rewrite !decide_True; [done|..]; apply elem_of_app; by left.
    + rewrite !decide_False; [done|..]; rewrite elem_of_app, list_elem_of_singleton;
        intros [?|?]; congruence.
Qed.

(** What an event leaves of the set of meshes. *)
Lemma body_mesh_is_Some s p k :
  is_Some (planetMeshes (body s p) !! k) ↔ is_Some (planetMeshes s !! k).
Proof.
  rewrite body_mesh. destruct (produced (outcome_of s p)) as [v|] eqn:Hv; [|done].
  destruct (decide (name p = k)) as [<-|Hne].
  - rewrite lookup_insert_eq. split; [|by eauto]. intros _.
    unfold outcome_of, advance in Hv.
    destruct (planetPositions s !! name p), (planetMeshes s !! name p); naive_solver.
  - by rewrite lookup_insert_ne.
Qed.

Lemma foldl_body_mesh_is_Some ps s k :
  is_Some (planetMeshes (foldl body s ps) !! k) ↔ is_Some (planetMeshes s !! k).
Proof.
  revert s. induction ps as [|p ps IH]; intros s; [done|].
  cbn [foldl]. by rewrite IH, body_mesh_is_Some.
Qed.

Lemma step_mesh_is_Some inc ps s e k :
  is_Some (planetMeshes (step inc ps s e) !! k) ↔ is_Some (planetMeshes s !! k).
Proof.
  destruct e as [q [err|data]| |]; cbn; try done.
  - destruct (_ && _); [|done].
    destruct (animate_with_frame inc ps (set_started (console_log LogAllLoaded s))) as (-> & _).
    by rewrite foldl_body_mesh_is_Some.
  - destruct (started s); [|done].
    destruct (animate_with_frame inc ps s) as (-> & _).
    by rewrite foldl_body_mesh_is_Some.
Qed.

Lemma run_snoc inc ps es e s :
  run inc ps (es ++ [e]) s = step inc ps (run inc ps es s) e.
Proof. unfold run. by rewrite foldl_app. Qed.

(** X1. In every state the raw-sample version can reach, the bodies that
    have a mesh are exactly the configured planets: no event creates or
    removes a mesh, so the mesh test of line 166 never fails for a planet
    of the list. *)
Theorem sampled_meshes_are_the_planets inc ps es k :
  is_Some (planetMeshes (run inc ps es (startup ps)) !! k) ↔ k ∈ name <$> ps.
Proof.
  induction es as [|e es IH] using rev_ind.
  - cbn. destruct (startup_mesh ps k) as [-> _]. case_decide; [by eauto|].
    split; [by intros [? ?]|done].
  - by rewrite run_snoc, step_mesh_is_Some.
Qed.

(** Until the loop is started nothing has moved. *)
Lemma step_not_started inc ps s e :
  started (step inc ps s e) = false →
  started s = false ∧ frameIndex (step inc ps s e) = frameIndex s ∧
  planetMeshes (step inc ps s e) = planetMeshes s.
Proof.
  destruct e as [q [err|data]| |]; cbn; try done.
  - destruct (all_settled ps s && negb (started s)); [|done].
    destruct (animate_with_frame inc ps (set_started (console_log LogAllLoaded s)))
      as (_ & _ & _ & _ & _ & ->). done.
  - destruct (started s) eqn:Hs; [|done].
    destruct (animate_with_frame inc ps s) as (_ & _ & _ & _ & _ & ->). congruence.
Qed.

Lemma all_settled_mono ps s s' :
  (∀ k, k ∈ settled s → k ∈ settled s') →
  all_settled ps s = true → all_settled ps s' = true.
Proof.
  intros Hsub. unfold all_settled. rewrite !forallb_forall.
  intros Hall p Hp. rewrite bool_decide_eq_true. apply Hsub.
  rewrite <- bool_decide_eq_true. by apply Hall.
Qed.

Lemma step_started inc ps s e :
  (started s = true → all_settled ps s = true) →
  started (step inc ps s e) = true → all_settled ps (step inc ps s e) = true.
Proof.
  intros Hs Hst.
  destruct (started s) eqn:Hs0.
  - apply (all_settled_mono ps s); [|by apply Hs].
    intros k. apply step_settled.
  - destruct e as [q r| |].
    + exfalso. destruct r; cbn in Hst; congruence.
    + revert Hst. cbn. rewrite Hs0.
      destruct (all_settled ps s) eqn:Hall; cbn; [|congruence]. intros _.
      apply (all_settled_mono ps s); [|done].
      intros k Hk.
      by destruct (animate_with_frame inc ps (set_started (console_log LogAllLoaded s)))
        as (_ & _ & _ & _ & -> & _).
    + exfalso. cbn in Hst. rewrite Hs0 in Hst. congruence.
Qed.

(** X3. [Promise.all] gates the animation: in every state the raw-sample
    version can reach, as long as the loop has not been started the counter
    is 0 and every mesh sits at the origin; and once it has been started,
    every planet's promise has settled. *)
Theorem sampled_nothing_moves_before_start inc ps es :
  (started (run inc ps es (startup ps)) = false →
   frameIndex (run inc ps es (startup ps)) = 0 ∧
   ∀ k v, planetMeshes (run inc ps es (startup ps)) !! k = Some v → v = origin) ∧
  (started (run inc ps es (startup ps)) = true →
   all_settled ps (run inc ps es (startup ps)) = true).
Proof.
  induction es as [|e es [IHn IHs]] using rev_ind.
  - unfold run. cbn [foldl].
    split; [|by destruct (startup_data ps) as (_ & _ & _ & _ & ->)].
    intros _. destruct (startup_data ps) as (_ & -> & _). split; [done|].
    intros k v. cbn. destruct (startup_mesh ps k) as [-> _].
    case_decide; congruence.
  - rewrite run_snoc. split.
    + intros Hn. apply step_not_started in Hn as (Hn & -> & ->). by apply IHn.
    + by apply step_started.
Qed.
End sampled_runs.

Section sampled_more.
Import Sampled.
Implicit Types (s : state) (p q : planet) (ps : list planet) (k : string).

Lemma sampled_frames_data (n : nat) (step : Qc) ps s :
  planetPositions (frames n step ps s) = planetPositions s ∧
  orbitPath (frames n step ps s) = orbitPath s ∧
  settled (frames n step ps s) = settled s ∧
  started (frames n step ps s) = started s ∧
  (0 ≤ step → frameIndex s ≤ frameIndex (frames n step ps s)).
Proof.
  induction n as [|n (IH1 & IH2 & IH3 & IH4 & IH5)].
  - change (frames 0 step ps s) with s. split_and!; try done; intros _; apply Qcle_refl.
  - change (frames (S n) step ps s)
      with (animate_with step ps (frames n step ps s)).
    destruct (animate_with_frame step ps (frames n step ps s))
      as (_ & -> & -> & -> & -> & ->).
    split_and!; try done. intros Hstep.
    eapply Qcle_trans; [by apply IH5|]. by apply Qcle_plus_nonneg.
Qed.

(** X4. Frames leave what was loaded alone: after any number of frames the
    stored sequences, the orbit lines, the settled promises and the mark of
    the started loop are what they were, and with a step that is not
    negative the counter is not smaller than it was. *)
Theorem sampled_frames_only_advance (n : nat) (step : Qc) ps s :
  planetPositions (frames n step ps s) = planetPositions s ∧
  orbitPath (frames n step ps s) = orbitPath s ∧
  settled (frames n step ps s) = settled s ∧
  started (frames n step ps s) = started s ∧
  (0 ≤ step → frameIndex s ≤ frameIndex (frames n step ps s)).
Proof. apply sampled_frames_data. Qed.

Lemma step_frameIndex_nonneg inc ps s e :
  0 ≤ inc → 0 ≤ frameIndex s → 0 ≤ frameIndex (step inc ps s e).
Proof.
  intros Hinc Hs. destruct e as [q [err|data]| |]; cbn; try done.
  - destruct (_ && _); [|done].
    destruct (animate_with_frame inc ps (set_started (console_log LogAllLoaded s)))
      as (_ & _ & _ & -> & _). by apply Qcplus_nonneg_nonneg.
  - destruct (started s); [|done].
    destruct (animate_with_frame inc ps s) as (_ & _ & _ & -> & _).
    by apply Qcplus_nonneg_nonneg.
Qed.

Lemma run_frameIndex_nonneg inc ps es s :
  0 ≤ inc → 0 ≤ frameIndex s → 0 ≤ frameIndex (run inc ps es s).
Proof.
  intros Hinc. revert s. induction es as [|e es IH]; intros s Hs; [done|].
  apply IH. by apply step_frameIndex_nonneg.
Qed.

(** X5. From its start the raw-sample version never reads outside a stored
    sequence: with a step that is not negative, in every state it can reach
    the counter is not negative, and for every body with a non-empty
    sequence the index of line 167 is a position of that sequence. *)
Theorem sampled_read_stays_in_bounds inc ps es k positions :
  0 ≤ inc →
  planetPositions (run inc ps es (startup ps)) !! k = Some positions →
  positions ≠ [] →
  0 ≤ frameIndex (run inc ps es (startup ps)) ∧
  ∃ (i : nat) e,
    sampleIndex (frameIndex (run inc ps es (startup ps))) (length positions)
      = Some (Z.of_nat i) ∧
    (i < length positions)%nat ∧ positions !! i = Some e.
Proof.
  intros Hinc Hpos Hne.
  assert (0 ≤ frameIndex (run inc ps es (startup ps))) as Hf.
  { apply run_frameIndex_nonneg; [done|].
    by destruct (startup_data ps) as (_ & -> & _). }
  split; [done|].
  assert (0 < length positions)%nat as Hlen.
  { destruct positions; [done | cbn; lia]. }
  rewrite sampleIndex_mod by done.
  set (z := (Qfloor _ `mod` _)%Z).
  assert (0 ≤ z < Z.of_nat (length positions))%Z as Hz.
  { apply Z.mod_pos_bound. lia. }
  assert (is_Some (positions !! Z.to_nat z)) as [e He]
    by (apply lookup_lt_is_Some_2; lia).
  exists (Z.to_nat z), e. split_and!; [f_equal; lia | lia | done].
Qed.

(** X6. The loads of two different bodies commute: in whichever order two
    fetches settle, the stored sequences, the orbit lines, the meshes, the
    counter and the settled promises end up the same, and the console holds
    the same lines (in the order of arrival). *)
Theorem sampled_loads_commute p q rp rq s :
  name p ≠ name q →
  planetPositions (load p rp (load q rq s)) = planetPositions (load q rq (load p rp s)) ∧
  orbitPath (load p rp (load q rq s)) = orbitPath (load q rq (load p rp s)) ∧
  planetMeshes (load p rp (load q rq s)) = planetMeshes (load q rq (load p rp s)) ∧
  frameIndex (load p rp (load q rq s)) = frameIndex (load q rq (load p rp s)) ∧
  settled (load p rp (load q rq s)) = settled (load q rq (load p rp s)) ∧
  started (load p rp (load q rq s)) = started (load q rq (load p rp s)) ∧
  console (load p rp (load q rq s)) ≡ₚ console (load q rq (load p rp s)).
Proof.
  intros Hne. destruct rp as [ep|dp], rq as [eq|dq]; cbn;
    split_and!; try done;
    try (by apply insert_insert_ne);
    try (apply set_eq; intros x; rewrite !elem_of_union; tauto);
    rewrite <- ?(assoc_L (++)); apply Permutation_app_head; cbn;
    solve_Permutation.
Qed.
End sampled_more.

(** ** The orbit-line version from its start *)

Section polyline_runs.
Import Polyline.
Implicit Types (s : state) (p q : planet) (ps : list planet) (k : string).

Lemma map_points_outcome (c : Qc) (data : list entry) :
  match map_points c data with
  | Ok pts => Forall (λ d, has_pos d = true) data ∧ length pts = length data
  | Throw _ => ¬ Forall (λ d, has_pos d = true) data
  end.
Proof.
  induction data as [|d data IH]; [done|]. cbn.
  destruct d as [|[pos|]]; cbn.
  - by intros Hall%Forall_cons_1%proj1.
  - destruct (map_points c data) as [pts|err].
    + destruct IH as [Hall Hlen]. split; [by constructor|]. cbn. by f_equal.
    + intros Hall%Forall_cons_1%proj2. by apply IH.
  - by intros Hall%Forall_cons_1%proj1.
Qed.

(** X9. The loader of the orbit-line version drops no record: a file either
    makes line 323 throw, exactly when some record is null or has no [pos],
    or gives a line with as many points as the file has records. *)
Theorem polyline_loader_drops_no_record (c : Qc) (data : list entry) :
  match map_points c data with
  | Ok pts => Forall (λ d, has_pos d = true) data ∧ length pts = length data
  | Throw _ => ¬ Forall (λ d, has_pos d = true) data
  end.
Proof. apply map_points_outcome. Qed.

Lemma pointIndex_zero (t : Qc) : pointIndex t 0 = None.
Proof. done. Qed.

(** X11. A line without points is not guarded: for a body with a mesh whose
    orbit line has no points (a file with no records), every frame takes the
    remainder by zero and leaves the mesh with undefined components. *)
Theorem polyline_empty_line_undefines_mesh ps s p orbit :
  NoDup (name <$> ps) → p ∈ ps →
  is_Some (planetMeshes s !! name p) →
  orbitLines s !! name p = Some orbit →
  points orbit = [] →
  planetMeshes (animate_on ps s) !! name p = Some undefined3.
Proof.
  intros Hnd Hp [m Hm] Ho Hpts.
  destruct (animate_on_frame ps s) as (-> & _).
  rewrite line_foldl_mesh by done. unfold target. cbn.
  by rewrite Hm, Ho, Hpts.
Qed.


Lemma line_body_mesh_is_Some s p k :
  is_Some (planetMeshes (body s p) !! k) ↔ is_Some (planetMeshes s !! k).
Proof.
  rewrite line_body. destruct (target s p) as [v|] eqn:Hv; [|done]. cbn.
  destruct (decide (name p = k)) as [<-|Hne]; [|by rewrite lookup_insert_ne].
  rewrite lookup_insert_eq. split; [|by eauto]. intros _.
  unfold target in Hv. by destruct (planetMeshes s !! name p).
Qed.

Lemma body_loader_inv s p : loader_inv s → loader_inv (body s p).
Proof.
  intros (Hlm & Hor & Haw & Hsp & Ht).
  destruct (line_body_frame s p) as (Hl & _ & Hs & Htt & Hld).
  unfold loader_inv. rewrite Hl, Hs, Htt, Hld. split_and!; try done.
  - intros k Hk. apply line_body_mesh_is_Some. by apply Hlm.
  - intros k v Hv Hk. apply (Hor k v); [|done].
    destruct (decide (name p = k)) as [<-|Hne].
    + rewrite line_body_mesh_same in Hv. unfold target in Hv. rewrite Hk in Hv.
      by destruct (planetMeshes s !! name p).
    + by rewrite line_body_mesh_other in Hv.
  - intros q rest Hq. apply line_body_mesh_is_Some. by eapply Haw.
Qed.

Lemma foldl_body_loader_inv ps s : loader_inv s → loader_inv (foldl body s ps).
Proof.
  revert s. induction ps as [|p ps IH]; intros s Hs; [done|].
  cbn [foldl]. by apply IH, body_loader_inv.
Qed.

Lemma enter_loader_inv ps s :
  (∀ k, is_Some (orbitLines s !! k) → is_Some (planetMeshes s !! k)) →
  (∀ k v, planetMeshes s !! k = Some v → orbitLines s !! k = None → v = origin) →
  0 < speed s → 0 ≤ t s →
  loader_inv (enter ps s).
Proof.
  intros Hlm Hor Hsp Ht. destruct ps as [|p rest]; cbn; split_and!; try done.
  - cbn. intros k Hk. destruct (decide (name p = k)) as [<-|Hne].
    + rewrite lookup_insert_eq. by eauto.
    + rewrite lookup_insert_ne by done. by apply Hlm.
  - cbn. intros k v. destruct (decide (name p = k)) as [<-|Hne].
    + rewrite lookup_insert_eq. congruence.
    + rewrite lookup_insert_ne by done. apply Hor.
  - cbn. intros q rest' [= <- <-]. rewrite lookup_insert_eq. by eauto.
Qed.

Lemma step_loader_inv ps s e : loader_inv s → loader_inv (step ps s e).
Proof.
  intros Hs. destruct e as [|r| | |]; cbn.
  - unfold animate_on. apply foldl_body_loader_inv.
    destruct Hs as (Hlm & Hor & Haw & Hsp & Ht). split_and!; try done.
    cbn. apply Qcplus_nonneg_nonneg; [done|]. by apply Qclt_le_weak.
  - destruct Hs as (Hlm & Hor & Haw & Hsp & Ht). unfold resume.
    destruct (loading s) as [p rest| |] eqn:Hl; [|by split_and!; rewrite ?Hl..].
    assert (loader_inv (set_loading Aborted s)) as Hab by (by split_and!).
    destruct r as [err|data]; [done|].
    destruct (map_points (scale p) data) as [pts|err]; [|done].
    apply enter_loader_inv; cbn; try done.
    + intros k. destruct (decide (name p = k)) as [<-|Hne].
      * intros _. by eapply Haw.
      * rewrite lookup_insert_ne by done. apply Hlm.
    + intros k v Hv. destruct (decide (name p = k)) as [<-|Hne].
      * by rewrite lookup_insert_eq.
      * rewrite lookup_insert_ne by done. by apply Hor.
  - destruct Hs as (Hlm & Hor & Haw & Hsp & Ht). split_and!; cbn; try done.
    + intros k. rewrite lookup_fmap, fmap_is_Some. apply Hlm.
    + intros k v Hv. rewrite lookup_fmap, fmap_None. by apply Hor.
  - destruct Hs as (Hlm & Hor & Haw & Hsp & Ht). split_and!; cbn; try done.
    by apply Qcmult_pos_pos.
  - destruct Hs as (Hlm & Hor & Haw & Hsp & Ht). split_and!; cbn; try done.
    by apply Qcmult_pos_pos.
Qed.

Lemma line_run_snoc ps es e s : run ps (es ++ [e]) s = step ps (run ps es s) e.
Proof. unfold run. by rewrite foldl_app. Qed.

Lemma run_loader_inv ps0 ps es : loader_inv (run ps0 es (startup ps)).
Proof.
  induction es as [|e es IH] using rev_ind.
  - apply enter_loader_inv; cbn; try done.
    intros k. rewrite lookup_empty. by intros [? ?].
  - rewrite line_run_snoc. by apply step_loader_inv.
Qed.

(** X12. In every state the orbit-line version can reach, a body that has an
    orbit line has a mesh, so the mesh test of line 371 never keeps a loaded
    body from being animated. *)
Theorem polyline_every_line_has_its_mesh ps es k :
  is_Some (orbitLines (run ps es (startup ps)) !! k) →
  is_Some (planetMeshes (run ps es (startup ps)) !! k).
Proof. apply (run_loader_inv ps ps es). Qed.

(** X13. In every state the orbit-line version can reach, a mesh without an
    orbit line is still at the origin: a body whose file has not arrived,
    or whose load failed, stays at the centre of the sun. *)
Theorem polyline_unloaded_mesh_stays_at_origin ps es k v :
  planetMeshes (run ps es (startup ps)) !! k = Some v →
  orbitLines (run ps es (startup ps)) !! k = None →
  v = origin.
Proof. apply (run_loader_inv ps ps es). Qed.

End polyline_runs.

Section polyline_controls.
Import Polyline.
Implicit Types (s : state) (p q : planet) (ps : list planet) (k : string).

Lemma enter_keeps ps s k :
  (is_Some (planetMeshes s !! k) → is_Some (planetMeshes (enter ps s) !! k)) ∧
  orbitLines (enter ps s) = orbitLines s.
Proof.
  destruct ps as [|p rest]; cbn; [done|]. split; [|done].
  intros Hk. destruct (decide (name p = k)) as [<-|Hne].
  - rewrite lookup_insert_eq. by eauto.
  - by rewrite lookup_insert_ne.
Qed.

Lemma loadPlanets_completes ps0 ps files s :
  length files = length ps →
  Forall (Forall (λ d, has_pos d = true)) files →
  loading (run ps0 (answers files) (enter ps s)) = Finished ∧
  (∀ k, is_Some (planetMeshes s !! k) ∨ k ∈ name <$> ps →
        is_Some (planetMeshes (run ps0 (answers files) (enter ps s)) !! k)) ∧
  (∀ k, is_Some (orbitLines s !! k) ∨ k ∈ name <$> ps →
        is_Some (orbitLines (run ps0 (answers files) (enter ps s)) !! k)).
Proof.
  revert files s. induction ps as [|p rest IH]; intros files s Hlen Hall.
  - destruct files; [|done]. cbn. split; [done|].
    split; intros k [Hk|Hk]; try done; by apply elem_of_nil in Hk.
  - destruct files as [|data files]; [done|].
    apply Forall_cons_1 in Hall as [Hdata Hall].
    injection Hlen as Hlen.
    change (run ps0 (answers (data :: files)) (enter (p :: rest) s))
      with (run ps0 (answers files) (resume (Parsed data) (enter (p :: rest) s))).
    unfold resume. cbn [enter loading set_loading].
    pose proof (map_points_outcome (scale p) data) as Hmp.
    destruct (map_points (scale p) data) as [pts|err]; [|done].
    set (s1 := set_line (name p) (mkLine pts true)
                 (set_loading (Awaiting p rest) (set_mesh (name p) origin s))).
    destruct (IH files s1 Hlen Hall) as (Hfin & Hm & Hl).
    split; [done|]. split.
    + intros k Hk. apply Hm. rewrite fmap_cons, elem_of_cons in Hk.
      destruct (decide (name p = k)) as [<-|Hne].
      * left. cbn. rewrite lookup_insert_eq. by eauto.
      * destruct Hk as [Hk|[Hk|Hk]]; [|congruence|by right].
        left. cbn. by rewrite lookup_insert_ne.
    + intros k Hk. apply Hl. rewrite fmap_cons, elem_of_cons in Hk.
      destruct (decide (name p = k)) as [<-|Hne].
      * left. cbn. rewrite lookup_insert_eq. by eauto.
      * destruct Hk as [Hk|[Hk|Hk]]; [|congruence|by right].
        left. cbn. by rewrite lookup_insert_ne.
Qed.

(** X15. [loadPlanets] runs to its end when every file arrives and every
    record has a [pos] array: with one such answer per planet, in the order
    of the list, the function returns (the loading banner is hidden) and
    every planet has a mesh and an orbit line. *)
Theorem polyline_loadPlanets_completes ps files :
  length files = length ps →
  Forall (Forall (λ d, has_pos d = true)) files →
  loading (run ps (answers files) (startup ps)) = Finished ∧
  ∀ p, p ∈ ps →
    is_Some (planetMeshes (run ps (answers files) (startup ps)) !! name p) ∧
    is_Some (orbitLines (run ps (answers files) (startup ps)) !! name p).
Proof.
  intros Hlen Hall.
  destruct (loadPlanets_completes ps ps files (mkState ∅ ∅ true 1 0 Finished) Hlen Hall)
    as (Hfin & Hm & Hl).
  split; [done|]. intros p Hp.
  split; [apply Hm | apply Hl]; right; by apply list_elem_of_fmap_2.
Qed.

Lemma toggle_body s p : body (toggleOrbits s) p = toggleOrbits (body s p).
Proof.
  unfold body. cbn [planetMeshes orbitLines toggleOrbits t].
  rewrite lookup_fmap.
  destruct (planetMeshes s !! name p); [|done].
  by destruct (orbitLines s !! name p).
Qed.

Lemma toggle_foldl_body ps s :
  foldl body (toggleOrbits s) ps = toggleOrbits (foldl body s ps).
Proof.
  revert s. induction ps as [|p ps IH]; intros s; [done|].
  cbn [foldl]. by rewrite toggle_body, IH.
Qed.

(** X16. Hiding the orbits does not stop the planets: a frame after a click
    on the toggle gives the same state as the click after the frame, so
    every mesh moves along its line whether the line is shown or not. *)
Theorem polyline_toggle_commutes_with_frame ps s :
  animate_on ps (toggleOrbits s) = toggleOrbits (animate_on ps s).
Proof.
  unfold animate_on. rewrite <- toggle_foldl_body. done.
Qed.

(** X17. One click of the toggle brings every orbit line in step with
    [orbitsVisible], and a third click in a row does what the first did. *)
Theorem polyline_toggle_synchronises s :
  map_Forall (λ _ l, visible l = orbitsVisible (toggleOrbits s))
             (orbitLines (toggleOrbits s)) ∧
  toggleOrbits (toggleOrbits (toggleOrbits s)) = toggleOrbits s.
Proof.
  split.
  - intros k l. cbn. rewrite lookup_fmap.
    destruct (orbitLines s !! k); [|done]. by intros [= <-].
  - unfold toggleOrbits. cbn. f_equal; [|by rewrite negb_involutive].
    apply map_eq. intros k. rewrite !lookup_fmap, negb_involutive.
    by destruct (orbitLines s !! k).
Qed.

Lemma polyline_frames_data (n : nat) ps s :
  speed (frames n ps s) = speed s ∧
  orbitsVisible (frames n ps s) = orbitsVisible s ∧
  loading (frames n ps s) = loading s ∧
  (0 ≤ speed s → t s ≤ t (frames n ps s)).
Proof.
  induction n as [|n (IH1 & IH2 & IH3 & IH4)].
  - change (frames 0 ps s) with s. split_and!; try done; intros _; apply Qcle_refl.
  - change (frames (S n) ps s) with (animate_on ps (frames n ps s)).
    destruct (animate_on_frame ps (frames n ps s)) as (_ & _ & -> & -> & -> & ->).
    split_and!; try done. intros Hs.
    eapply Qcle_trans; [by apply IH4|]. apply Qcle_plus_nonneg. by rewrite IH1.
Qed.

(** X19. Frames of the orbit-line version change nothing but the meshes and
    [t]: after any number of frames the orbit lines, their visibility, the
    speed and the state of the loader are what they were, and with a speed
    that is not negative [t] is not smaller than it was. *)
Theorem polyline_frames_only_advance (n : nat) ps s :
  orbitLines (frames n ps s) = orbitLines s ∧
  orbitsVisible (frames n ps s) = orbitsVisible s ∧
  speed (frames n ps s) = speed s ∧
  loading (frames n ps s) = loading s ∧
  (0 ≤ speed s → t s ≤ t (frames n ps s)).
Proof.
  destruct (polyline_frames_data n ps s) as (H1 & H2 & H3 & H4).
  split; [apply polyline_frames_frame|done].
Qed.
End polyline_controls.

(** ** The cube of the first version *)

(** X20. The cube turns about both axes in step: the two rotations get
    the same addend in every call of the animation loop, so rotations that
    are equal stay equal through any number of calls, as they are from the
    start; and neither rotation ever gets smaller. *)
Theorem cube_rotates_in_step (n : nat) (s : Cube.state) :
  (Cube.rotation_x s = Cube.rotation_y s →
   Cube.rotation_x (Cube.frames n s) = Cube.rotation_y (Cube.frames n s)) ∧
  Cube.rotation_x (Cube.frames n Cube.startup)
    = Cube.rotation_y (Cube.frames n Cube.startup) ∧
  Cube.rotation_x s ≤ Cube.rotation_x (Cube.frames n s) ∧
  Cube.rotation_y s ≤ Cube.rotation_y (Cube.frames n s).
Proof.
  assert (∀ s0, Cube.rotation_x s0 = Cube.rotation_y s0 →
            Cube.rotation_x (Cube.frames n s0) = Cube.rotation_y (Cube.frames n s0)) as H.
  { intros s0 H0. induction n as [|n IH]; [done|].
    change (Cube.frames (S n) s0) with (Cube.animate (Cube.frames n s0)).
    cbn [Cube.animate Cube.rotation_x Cube.rotation_y]. by rewrite IH. }
  split_and!; [by apply H | by apply H | |]; clear H.
  - induction n as [|n IH]; [apply Qcle_refl|].
    change (Cube.frames (S n) s) with (Cube.animate (Cube.frames n s)).
    cbn [Cube.animate Cube.rotation_x]. eapply Qcle_trans; [exact IH|].
    by apply Qcle_plus_nonneg.
  - induction n as [|n IH]; [apply Qcle_refl|].
    change (Cube.frames (S n) s) with (Cube.animate (Cube.frames n s)).
    cbn [Cube.animate Cube.rotation_y]. eapply Qcle_trans; [exact IH|].
    by apply Qcle_plus_nonneg.
Qed.

(** ** The star fields *)

Section stars.
Import Starfield.

Lemma spread_bounds (half side r : Qc) :
  0 ≤ side → side = half + half → 0 ≤ r → r < 1 →
  - half ≤ spread side r ∧ (0 < side → spread side r < half).
Proof.
  intros Hside Hhalf Hr0 Hr1. unfold spread.
  assert (Q2Qc (1 # 2) * side = half) as Hh.
  { rewrite Hhalf. transitivity ((Q2Qc (1 # 2) + Q2Qc (1 # 2)) * half); [ring|].
    replace (Q2Qc (1 # 2) + Q2Qc (1 # 2)) with 1 by (by apply Qc_is_canon). ring. }
  replace ((r - Q2Qc (1 # 2)) * side) with (r * side - half) by (rewrite <- Hh; ring).
  split.
  - apply Qcle_minus_iff.
    replace (r * side - half + - - half) with (r * side) by ring.
    by apply Qcmult_nonneg_nonneg.
  - intros Hpos. apply Qclt_minus_iff.
    replace (half + - (r * side - half)) with ((1 - r) * side) by (rewrite Hhalf; ring).
    apply Qcmult_pos_pos; [|done]. apply Qclt_minus_iff in Hr1. exact Hr1.
Qed.

Lemma fill_invariant (rnd : nat → Qc) (n m : nat) :
  (m ≤ n)%nat →
  let st := foldl (fill rnd) (0%nat, replicate (n * 3) (Some 0)) (seq 0 m) in
  st.1 = (m * 3)%nat ∧ length (st.2) = (n * 3)%nat ∧
  (∀ j, (j < m * 3)%nat → st.2 !! j = Some (stored (Q2Qc 10000) (rnd j))) ∧
  (∀ j, (m * 3 ≤ j < n * 3)%nat → st.2 !! j = Some (Some 0)).
Proof.
  induction m as [|m IH]; intros Hm; cbn zeta.
  - cbn. split_and!; [done | by rewrite length_replicate | lia |].
    intros j Hj. apply lookup_replicate_2. lia.
  - rewrite seq_S, foldl_app. cbn [foldl Nat.add].
    destruct IH as (Hc & Hlen & Hset & Hrest); [lia|].
    set (st := foldl (fill rnd) (0%nat, replicate (n * 3) (Some 0)) (seq 0 m)) in *.
    unfold fill. cbn [fst snd]. rewrite Hc.
    split_and!.
    + lia.
    + by rewrite !length_insert.
    + intros j Hj.
      destruct (decide (j = m * 3 + 2)%nat) as [->|H2].
      { apply list_lookup_insert_eq. rewrite !length_insert. lia. }
      rewrite list_lookup_insert_ne by done.
      destruct (decide (j = m * 3 + 1)%nat) as [->|H1].
      { apply list_lookup_insert_eq. rewrite !length_insert. lia. }
      rewrite list_lookup_insert_ne by done.
      destruct (decide (j = m * 3)%nat) as [->|H0].
      { apply list_lookup_insert_eq. lia. }
      rewrite list_lookup_insert_ne by done. apply Hset. lia.
    + intros j Hj. rewrite !list_lookup_insert_ne by lia. apply Hrest. lia.
Qed.

Lemma push_invariant (rnd : nat → Qc) (m : nat) :
  let st := foldl (push rnd) (0%nat, []) (seq 0 m) in
  st.1 = (m * 3)%nat ∧ length (st.2) = (m * 3)%nat ∧
  (∀ j, (j < m * 3)%nat → st.2 !! j = Some (spread (Q2Qc 20000) (rnd j))).
Proof.
  induction m as [|m (Hc & Hlen & Hset)]; cbn zeta.
  - cbn. split_and!; [done | done | lia].
  - rewrite seq_S, foldl_app. cbn [foldl Nat.add].
    set (st := foldl (push rnd) (0%nat, []) (seq 0 m)) in *.
    unfold push. cbn [fst snd]. rewrite Hc.
    split_and!.
    + lia.
    + rewrite length_app, Hlen. cbn. lia.
    + intros j Hj. destruct (decide (j < m * 3)%nat) as [Hlt|Hge].
      * rewrite lookup_app_l by lia. by apply Hset.
      * rewrite lookup_app_r by lia. rewrite Hlen.
        assert (j = m * 3 ∨ j = m * 3 + 1 ∨ j = m * 3 + 2)%nat as [-> | [-> | ->]] by lia.
        -- by rewrite Nat.sub_diag.
        -- by replace (m * 3 + 1 - m * 3)%nat with 1%nat by lia.
        -- by replace (m * 3 + 2 - m * 3)%nat with 2%nat by lia.
Qed.

Lemma spread_10000 (r : Qc) :
  0 ≤ r → r < 1 →
  - Q2Qc 5000 ≤ spread (Q2Qc 10000) r ∧ spread (Q2Qc 10000) r < Q2Qc 5000.
Proof.
  intros H0 H1.
  destruct (spread_bounds (Q2Qc 5000) (Q2Qc 10000) r) as [Hl Hu];
    [done | by apply Qc_is_canon | done | done |].
  split; [done|]. by apply Hu.
Qed.

Lemma spread_20000 (r : Qc) :
  0 ≤ r → r < 1 →
  - Q2Qc 10000 ≤ spread (Q2Qc 20000) r ∧ spread (Q2Qc 20000) r < Q2Qc 10000.
Proof.
  intros H0 H1.
  destruct (spread_bounds (Q2Qc 10000) (Q2Qc 20000) r) as [Hl Hu];
    [done | by apply Qc_is_canon | done | done |].
  split; [done|]. by apply Hu.
Qed.

Lemma prec32 : (1 <= Ieee.prec Ieee.binary32)%Z.
Proof. done. Qed.

Lemma Qc_scale_bounds (d : Qc) :
  - Q2Qc (1 # 2) ≤ d → d ≤ Q2Qc (1 # 2) →
  - Q2Qc 5000 ≤ d * Q2Qc 10000 ∧ d * Q2Qc 10000 ≤ Q2Qc 5000.
Proof.
  intros H1 H2. unfold Qcle in *. rewrite ?this_opp, ?this_mult in *.
  rewrite ?this_Q2Qc in *. lra.
Qed.


Lemma stored_bounds (r : Qc) :
  0 ≤ r → r < 1 →
  ∃ c, stored (Q2Qc 10000) r = Some c ∧ - Q2Qc 5000 ≤ c ∧ c ≤ Q2Qc 5000.
Proof.
  intros H0 H1. unfold stored, Doubles.minus.
  destruct (rounded_between Ieee.binary64 prec64 (- Q2Qc (1 # 2)) (r - Q2Qc (1 # 2))
              (Q2Qc (1 # 2))) as (d & Hd & Hd1 & Hd2); [ | | evaluate | evaluate |].
  { unfold Qcle, Qcminus in *. rewrite ?this_plus, ?this_opp in *. rewrite ?this_Q2Qc in *.
    change (this 0) with 0%Q in H0. lra. }
  { unfold Qcle, Qclt, Qcminus in *. rewrite ?this_plus, ?this_opp in *.
    rewrite ?this_Q2Qc in *. change (this 1) with 1%Q in H1. lra. }
  unfold Doubles.double. rewrite Hd. cbn [Doubles.times].
  destruct (Qc_scale_bounds d Hd1 Hd2) as [He1 He2].
  destruct (rounded_between Ieee.binary64 prec64 (- Q2Qc 5000) (d * Q2Qc 10000)
              (Q2Qc 5000)) as (e & He & He1' & He2'); [done | done | evaluate | evaluate |].
  unfold Doubles.double. rewrite He. cbn.
  destruct (rounded_between Ieee.binary32 prec32 (- Q2Qc 5000) e (Q2Qc 5000))
    as (c & Hc & Hc1 & Hc2); [done | done | evaluate | evaluate |].
  exists c. done.
Qed.

(** X21. [createStarfield] fills the whole buffer and nothing but the cube:
    for [starCount] stars it calls [Math.random] 3 * starCount times, the
    array has 3 * starCount slots, and slot j holds what the j-th random
    number gives: shifted and scaled in double arithmetic and rounded to a
    32-bit float by the array.  When the generator stays in [0, 1) every
    slot holds a finite number in [-5000, 5000], both ends included. *)
Theorem createStarfield_fills_the_cube (rnd : nat → Qc) (starCount : nat) :
  unit_interval rnd →
  (createStarfield rnd starCount).1 = (starCount * 3)%nat ∧
  length ((createStarfield rnd starCount).2) = (starCount * 3)%nat ∧
  (∀ j, (j < starCount * 3)%nat →
        (createStarfield rnd starCount).2 !! j = Some (stored (Q2Qc 10000) (rnd j))) ∧
  (∀ v, v ∈ (createStarfield rnd starCount).2 →
        ∃ c, v = Some c ∧ - Q2Qc 5000 ≤ c ∧ c ≤ Q2Qc 5000).
Proof.
  intros Hrnd.
  destruct (fill_invariant rnd starCount starCount) as (Hc & Hlen & Hset & _); [done|].
  split_and!; try done.
  intros v Hin. apply list_elem_of_lookup_1 in Hin as [j Hj].
  assert (j < starCount * 3)%nat as Hlt.
  { rewrite <- Hlen. by eapply lookup_lt_Some. }
  unfold createStarfield in Hj. rewrite Hset in Hj by done. injection Hj as <-.
  apply stored_bounds; apply Hrnd.
Qed.

(** X22. [createStarField] of the orbit-line version does the same in a cube
    twice as wide: 3 * starCount calls of [Math.random], 3 * starCount
    coordinates pushed in the order drawn, each in [-10000, 10000) when the
    generator stays in [0, 1). *)
Theorem createStarField_fills_the_cube (rnd : nat → Qc) (starCount : nat) :
  (createStarField rnd starCount).1 = (starCount * 3)%nat ∧
  length ((createStarField rnd starCount).2) = (starCount * 3)%nat ∧
  (∀ j, (j < starCount * 3)%nat →
        (createStarField rnd starCount).2 !! j
          = Some ((rnd j - Q2Qc (1 # 2)) * Q2Qc 20000)) ∧
  (unit_interval rnd →
   ∀ c, c ∈ (createStarField rnd starCount).2 →
        - Q2Qc 10000 ≤ c ∧ c < Q2Qc 10000).
Proof.
  destruct (push_invariant rnd starCount) as (Hc & Hlen & Hset).
  split_and!; try done.
  intros Hrnd c Hin. apply list_elem_of_lookup_1 in Hin as [j Hj].
  assert (j < starCount * 3)%nat as Hlt.
  { rewrite <- Hlen. by eapply lookup_lt_Some. }
  unfold createStarField in Hj. rewrite Hset in Hj by done. injection Hj as <-.
  apply spread_20000; apply Hrnd.
Qed.

Lemma quarters_unit : unit_interval quarters.
Proof.
  intros k. unfold quarters.
  pose proof (Nat.mod_upper_bound k 4) as Hk.
  destruct (k mod 4)%nat as [|[|[|[|?]]]]; [by vm_compute..|lia].
Qed.
End stars.


(** ** Instances *)

Lemma sampled_nothing_moves_before_start_witness :
  (Sampled.started
     (Sampled.run Sampled.FRAME_SPEED Sampled.planets Examples.early
        (Sampled.startup Sampled.planets)) = false ∧
   Sampled.frameIndex
     (Sampled.run Sampled.FRAME_SPEED Sampled.planets Examples.early
        (Sampled.startup Sampled.planets)) = 0) ∧
  (Sampled.started
     (Sampled.run Sampled.FRAME_SPEED Sampled.planets Examples.late
        (Sampled.startup Sampled.planets)) = true ∧
   Sampled.all_settled Sampled.planets
     (Sampled.run Sampled.FRAME_SPEED Sampled.planets Examples.late
        (Sampled.startup Sampled.planets)) = true).
Proof.
  split.
  - split; [by vm_compute|].
    refine (proj1 (proj1 (sampled_nothing_moves_before_start Sampled.FRAME_SPEED
                            Sampled.planets Examples.early) _)).
    by vm_compute.
  - split; [by vm_compute|].
    refine (proj2 (sampled_nothing_moves_before_start Sampled.FRAME_SPEED
                     Sampled.planets Examples.late) _).
    by vm_compute.
Defined.

Lemma sampled_read_stays_in_bounds_witness :
  0 ≤ Sampled.frameIndex
        (Sampled.run 1 [Scenario.probe 1] Examples.probing
           (Sampled.startup [Scenario.probe 1])) ∧
  ∃ (i : nat) e,
    Sampled.sampleIndex
      (Sampled.frameIndex
         (Sampled.run 1 [Scenario.probe 1] Examples.probing
            (Sampled.startup [Scenario.probe 1])))
      (length Scenario.track) = Some (Z.of_nat i) ∧
    (i < length Scenario.track)%nat ∧ Scenario.track !! i = Some e.
Proof.
  apply (sampled_read_stays_in_bounds 1 [Scenario.probe 1] Examples.probing "Probe"
           Scenario.track).
  - by vm_compute.
  - evaluate.
  - done.
Defined.

Lemma sampled_loads_commute_witness :
  Sampled.planetPositions
    (Sampled.load Sampled.mercury (Parsed Scenario.track)
       (Sampled.load Sampled.venus (Rejected "404") (Sampled.startup Sampled.planets)))
  = Sampled.planetPositions
      (Sampled.load Sampled.venus (Rejected "404")
         (Sampled.load Sampled.mercury (Parsed Scenario.track)
            (Sampled.startup Sampled.planets))).
Proof.
  refine (proj1 (sampled_loads_commute Sampled.mercury Sampled.venus
                   (Parsed Scenario.track) (Rejected "404")
                   (Sampled.startup Sampled.planets) _)).
  discriminate.
Defined.

Lemma polyline_empty_line_undefines_mesh_witness :
  Polyline.planetMeshes
    (Polyline.animate_on [Scenario.tracer 1] Scenario.traced_empty) !! "Probe"
  = Some undefined3.
Proof.
  apply (polyline_empty_line_undefines_mesh [Scenario.tracer 1] Scenario.traced_empty
           (Scenario.tracer 1) (Polyline.mkLine [] true)).
  - evaluate.
  - apply list_elem_of_singleton. reflexivity.
  - evaluate.
  - evaluate.
  - reflexivity.
Defined.

Lemma polyline_every_line_has_its_mesh_witness :
  is_Some
    (Polyline.planetMeshes
       (Polyline.run Polyline.planets Examples.tracing
          (Polyline.startup Polyline.planets)) !! "mercury").
Proof.
  apply (polyline_every_line_has_its_mesh Polyline.planets Examples.tracing "mercury").
  evaluate.
Defined.

Lemma polyline_unloaded_mesh_stays_at_origin_witness :
  Polyline.orbitLines
    (Polyline.run Polyline.planets Examples.mercury_rejected
       (Polyline.startup Polyline.planets)) !! "mercury" = None ∧
  origin = origin.
Proof.
  split; [evaluate|].
  apply (polyline_unloaded_mesh_stays_at_origin Polyline.planets
           Examples.mercury_rejected "mercury" origin).
  - evaluate.
  - evaluate.
Defined.

Lemma polyline_loadPlanets_completes_witness :
  Polyline.loading
    (Polyline.run Polyline.planets (answers Examples.nine_tracks)
       (Polyline.startup Polyline.planets)) = Polyline.Finished.
Proof.
  refine (proj1 (polyline_loadPlanets_completes Polyline.planets Examples.nine_tracks
                   _ _)).
  - reflexivity.
  - repeat constructor.
Defined.

Lemma createStarfield_fills_the_cube_witness :
  Starfield.unit_interval quarters ∧
  (Starfield.createStarfield quarters 2).2
    = Some <$> [- Q2Qc 5000; - Q2Qc 2500; Q2Qc 0; Q2Qc 2500; - Q2Qc 5000; - Q2Qc 2500] ∧
  Forall (λ v, ∃ c, v = Some c ∧ - Q2Qc 5000 ≤ c ∧ c ≤ Q2Qc 5000)
         (Starfield.createStarfield quarters 2).2.
Proof.
  split; [apply quarters_unit|]. split; [evaluate|]. apply list.Forall_forall.
  apply (createStarfield_fills_the_cube quarters 2). apply quarters_unit.
Defined.

Lemma createStarField_fills_the_cube_witness :
  Starfield.unit_interval quarters ∧
  Forall (λ c, - Q2Qc 10000 ≤ c ∧ c < Q2Qc 10000) (Starfield.createStarField quarters 2).2.
Proof.
  split; [apply quarters_unit|]. apply list.Forall_forall.
  apply (proj2 (proj2 (proj2 (createStarField_fills_the_cube quarters 2)))).
  apply quarters_unit.
Defined.

Lemma typed_records_never_throw_witness :
  ∃ d', Dynamic.animate_with Examples.no_number 1 [Scenario.probe 1]
          (Dynamic.of_state (Scenario.loaded 1)) = Dynamic.Normal d' ∧
        Dynamic.models (Sampled.animate_with 1 [Scenario.probe 1] (Scenario.loaded 1)) d'.
Proof.
  apply (typed_records_never_throw Examples.no_number 1 [Scenario.probe 1]
           (Scenario.loaded 1) (Dynamic.of_state (Scenario.loaded 1))).
  split; [reflexivity|]. split; reflexivity.
Defined.

Lemma thrown_frame_freezes_playback_witness :
  Dynamic.thrown
    (Dynamic.animate_with Examples.no_number Sampled.FRAME_SPEED [Scenario.probe 1]
       (Dynamic.frames Examples.no_number 5 Sampled.FRAME_SPEED [Scenario.probe 1]
          (Examples.holding [Examples.pos_object]))) = true ∧
  Dynamic.frameIndex
    (Dynamic.frames Examples.no_number 5 Sampled.FRAME_SPEED [Scenario.probe 1]
       (Examples.holding [Examples.pos_object])) = 0.
Proof.
  refine (let H := thrown_frame_freezes_playback Examples.no_number Sampled.FRAME_SPEED
                     [Scenario.probe 1] (Examples.holding [Examples.pos_object]) 5 _
          in conj (proj1 H) (proj1 (proj2 H))).
  by vm_compute.
Defined.

Lemma clock_stalls_below_half_ulp_witness :
  Doubles.t Examples.slowed = Some 1 ∧
  Doubles.speed Examples.slowed = Some Examples.slowed_speed ∧
  0 < Examples.slowed_speed ∧
  Doubles.t (Doubles.animate Examples.slowed) = Some 1.
Proof.
  split; [evaluate|]. split; [evaluate|]. split; [by vm_compute|].
  refine (proj1 (clock_stalls_below_half_ulp Examples.slowed 1 Examples.slowed_speed
                   _ _ _ _ _) _).
  - evaluate.
  - evaluate.
  - by vm_compute.
  - evaluate.
  - by vm_compute.
  - by vm_compute.
Defined.

Lemma frameIndex_advances_below_2_50_witness :
  Doubles.lt (Some 0) (Doubles.next_frameIndex (Some 0)) ∧
  Doubles.next_frameIndex (Some (Qc_of_Z (2 ^ 50))) = Some (Qc_of_Z (2 ^ 50)).
Proof.
  split.
  - refine (proj1 (frameIndex_advances_below_2_50 0 _ _) _).
    + by vm_compute.
    + evaluate.
    + by vm_compute.
  - refine (proj2 (frameIndex_advances_below_2_50 (Qc_of_Z (2 ^ 50)) _ _) _).
    + by vm_compute.
    + evaluate.
    + by vm_compute.
Defined.
